(** * WSDoor: the websocket listener of rippled

    A shallow embedding of [src/ripple/app/websocket/WSDoor.cpp]: the class
    [WSDoorImp] (constructor, [run], [onStop]) and the factory
    [make_WSDoor].

    [run] executes on the thread spawned by the constructor; [onStop] is
    called from other threads.  Both are embedded as program-counter
    machines whose labels are the source lines, and the listener as a whole
    is the interleaving of the execution thread with any number of [onStop]
    callers over the shared members of the object. *)

From Stdlib Require Import String Ascii List NArith Arith Bool Lia.
From Stdlib Require Import DecimalString DecimalN.
Import ListNotations.
Local Open Scope string_scope.

(** ** C++ exceptions and results *)

(** [run] has handlers for [websocketpp::exception&] only, [make_WSDoor]
    has [catch (...)]: the embedding keeps the one distinction the handlers
    make, whether the thrown object is a [websocketpp::exception]. *)
Inductive exn : Type :=
| websocketpp_exception (what : string)
| foreign_exception (what : string).

(** A call either returns or leaves by an exception. *)
Inductive result (A : Type) : Type :=
| Normal (a : A)
| Thrown (e : exn).
Arguments Normal {A} a.
Arguments Thrown {A} e.

Definition bind {A B : Type} (m : result A) (k : A -> result B) : result B :=
  match m with
  | Normal a => k a
  | Thrown e => Thrown e
  end.

(** [try { body } catch (...) { handler }] *)
Definition try_catch_all {A : Type} (body : result A) (handler : exn -> result A)
  : result A :=
  match body with
  | Normal a => Normal a
  | Thrown e => handler e
  end.

(** What a constructor or an external call does when it is reached:
    [None] it completes, [Some e] it throws [e]. *)
Definition may_throw := option exn.

Definition attempt (o : may_throw) : result unit :=
  match o with
  | None => Normal tt
  | Some e => Thrown e
  end.

(** ** Diagnostics *)

(** The two severities [WriteLog] is used with in this file. *)
Inductive LogSeverity : Type := lsINFO | lsWARNING.

Definition LogLine : Type := (LogSeverity * string)%type.

Definition severity_eqb (a b : LogSeverity) : bool :=
  match a, b with
  | lsINFO, lsINFO | lsWARNING, lsWARNING => true
  | _, _ => false
  end.

(** ** [HTTP::Port] *)

(** The address type of [HTTP::Port::ip] is declared outside this file; all
    that [run] uses of it is [to_string()]. *)
Class AddressOps (Address : Type) : Type :=
  { address_to_string : Address -> string }.

(** The members of [HTTP::Port] that this file reads.  [port] is a
    [std::uint16_t]; no arithmetic is done on it. *)
Record Port (Address : Type) : Type := mkPort
  { name : string;
    ip : Address;
    port : N;
    allow_admin : bool }.
Arguments mkPort {Address} _ _ _ _.
Arguments name {Address} _.
Arguments ip {Address} _.
Arguments port {Address} _.
Arguments allow_admin {Address} _.

(** [std::to_string] on an unsigned value: its decimal digits. *)
Definition to_string (n : N) : string :=
  NilEmpty.string_of_uint (N.to_uint n).

(** The text streamed into [WriteLog (lsINFO, WSDoor)] at lines 76-79. *)
Definition startup_message {Address} `{AddressOps Address} (p : Port Address)
  : string :=
  "Websocket: '" ++ name p ++ "' listening on " ++
    address_to_string (ip p) ++ ":" ++ to_string (port p) ++
      (if allow_admin p then "(Admin)" else "").

(** The text streamed into [WriteLog (lsWARNING, WSDoor)] at lines 98, 111. *)
Definition warning_message (what : string) : string :=
  "websocketpp exception: " ++ what.

(** ** Threads, the shared pointer, the transport *)

(** Thread identities: [run_tid] is the thread started by the constructor,
    [caller i] the thread of the [i]-th invocation of [onStop]. *)
Definition tid : Type := nat.
Definition run_tid : tid := 0.
Definition caller (i : nat) : tid := S i.

(** [std::shared_ptr<websocketpp::server_autotls>].  [run] executes once per
    object, so at most one endpoint object is ever made: a pointer is null
    or refers to that object, whose owners are counted in [use_count]. *)
Inductive shared_ptr : Type := nullptr | pointer.

Definition is_set (p : shared_ptr) : bool :=
  match p with
  | pointer => true
  | nullptr => false
  end.

Definition owners (p : shared_ptr) : nat :=
  match p with
  | pointer => 1
  | nullptr => 0
  end.

(** The two blocking calls of [run] into the transport. *)
Inductive ServeCall : Type :=
| listen            (* m_endpoint->listen (port_->ip, port_->port) *)
| io_service_run.   (* m_endpoint->get_io_service ().run () *)

(** How a blocking transport call ends. *)
Inductive Outcome : Type :=
| Returns
| Raises (e : exn).

(** What a thread does in one step, as recorded in the history. *)
Inductive action : Type :=
| ALog (sev : LogSeverity) (msg : string)
| ANewHandler
| ALock
| AUnlock
| AMakeShared
| AStore (v : shared_ptr)        (* a write of m_endpoint *)
| ALoad (v : shared_ptr)         (* a read of m_endpoint *)
| ACall (c : ServeCall)
| AOutcome (c : ServeCall) (o : Outcome)
| AStop                          (* endpoint->stop () entered *)
| AStopDone                      (* endpoint->stop () returned *)
| AStopped                       (* Stoppable::stopped () *)
| ASignalExit                    (* signalThreadShouldExit () *)
| ADrop (v : shared_ptr).        (* a local shared_ptr goes out of scope *)

Record event : Type := mkEvent { who : tid; what : action }.

(** ** The listener's state *)

(** The members of [WSDoorImp] that change ([m_endpoint], [m_endpointLock],
    the exit flag of the [Thread] base), the endpoint object they refer to,
    and the collaborators' side: the log, the parent [Stoppable] that counts
    [stopped ()], the transport's future.  [history] is the record of all
    actions, most recent first; nothing reads it. *)
Record World : Type := mkWorld
  { m_endpoint : shared_ptr;
    m_endpointLock : option (tid * nat);   (* recursive mutex: owner, depth *)
    threadShouldExit : bool;
    use_count : nat;
    stop_requests : nat;
    journal : list LogLine;                (* most recent first *)
    stopped_calls : nat;
    transport : list Outcome;              (* ends of the blocking calls *)
    history : list event }.

Definition note (t : tid) (a : action) (w : World) : World :=
  mkWorld (m_endpoint w) (m_endpointLock w) (threadShouldExit w) (use_count w)
    (stop_requests w) (journal w) (stopped_calls w) (transport w)
    (mkEvent t a :: history w).

Definition set_endpoint (p : shared_ptr) (w : World) : World :=
  mkWorld p (m_endpointLock w) (threadShouldExit w) (use_count w)
    (stop_requests w) (journal w) (stopped_calls w) (transport w) (history w).

Definition set_lock (l : option (tid * nat)) (w : World) : World :=
  mkWorld (m_endpoint w) l (threadShouldExit w) (use_count w)
    (stop_requests w) (journal w) (stopped_calls w) (transport w) (history w).

Definition set_exit_flag (b : bool) (w : World) : World :=
  mkWorld (m_endpoint w) (m_endpointLock w) b (use_count w)
    (stop_requests w) (journal w) (stopped_calls w) (transport w) (history w).

Definition set_use_count (n : nat) (w : World) : World :=
  mkWorld (m_endpoint w) (m_endpointLock w) (threadShouldExit w) n
    (stop_requests w) (journal w) (stopped_calls w) (transport w) (history w).

Definition set_stop_requests (n : nat) (w : World) : World :=
  mkWorld (m_endpoint w) (m_endpointLock w) (threadShouldExit w) (use_count w)
    n (journal w) (stopped_calls w) (transport w) (history w).

Definition set_journal (j : list LogLine) (w : World) : World :=
  mkWorld (m_endpoint w) (m_endpointLock w) (threadShouldExit w) (use_count w)
    (stop_requests w) j (stopped_calls w) (transport w) (history w).

Definition set_stopped_calls (n : nat) (w : World) : World :=
  mkWorld (m_endpoint w) (m_endpointLock w) (threadShouldExit w) (use_count w)
    (stop_requests w) (journal w) n (transport w) (history w).

Definition set_transport (o : list Outcome) (w : World) : World :=
  mkWorld (m_endpoint w) (m_endpointLock w) (threadShouldExit w) (use_count w)
    (stop_requests w) (journal w) (stopped_calls w) o (history w).

(** *** Primitive operations *)

(** [WriteLog (sev, WSDoor) << msg].  The macro and the severity threshold
    of the log partition are declared outside this file: the journal holds
    what is handed to the log. *)
Definition WriteLog (t : tid) (sev : LogSeverity) (msg : string) (w : World)
  : World :=
  note t (ALog sev msg) (set_journal ((sev, msg) :: journal w) w).

(** [ScopedLockType lock (m_endpointLock)]: a recursive mutex is taken when
    free or already owned by the caller; otherwise the caller waits
    ([None]). *)
Definition acquire (t : tid) (w : World) : option World :=
  match m_endpointLock w with
  | None => Some (note t ALock (set_lock (Some (t, 1)) w))
  | Some (o, d) =>
      if Nat.eqb o t then Some (note t ALock (set_lock (Some (t, S d)) w))
      else None
  end.

(** The end of a [ScopedLockType]'s scope.  Unlocking a mutex the thread
    does not own is undefined: [None]. *)
Definition release (t : tid) (w : World) : option World :=
  match m_endpointLock w with
  | Some (o, S d) =>
      if Nat.eqb o t
      then Some (note t AUnlock
                   (set_lock (match d with 0 => None | S _ => Some (t, d) end) w))
      else None
  | _ => None
  end.

(** Giving up one owner of what [p] refers to. *)
Definition drop_owner (p : shared_ptr) (w : World) : World :=
  set_use_count (use_count w - owners p) w.

(** Whether [p] can be dereferenced: non-null, object not yet destroyed. *)
Definition alive (p : shared_ptr) (w : World) : bool :=
  is_set p && Nat.ltb 0 (use_count w).

(** ** [WSDoorImp::run] *)

(** What the two constructions of [run] do when reached: [new
    WSServerHandler] (line 82) and [std::make_shared<server_autotls>]
    (line 88). *)
Record Environment : Type := mkEnvironment
  { handler_ctor : may_throw;
    endpoint_ctor : may_throw }.

(** Program points of [run], named by source line.  [L94_blocked] and
    [L106_blocked] are the thread parked inside the blocking call; [L98 m]
    and [L111 m] are the two handlers holding an exception whose [what ()]
    is [m].  [Returned]: [run] returned; [Unwound e]: [e] left [run];
    [RunFault]: undefined behaviour (null dereference, foreign unlock). *)
Inductive RunPc : Type :=
| L76 | L81 | L86 | L88 | L89
| L94 | L94_blocked
| L98 (m : string)
| L106 | L106_blocked
| L111 (m : string)
| L117 | L119 | L120 | L122
| Returned
| Unwound (e : exn)
| RunFault.

Section Run.

Context {Address : Type} `{AddressOps Address}.
Variable port_ : Port Address.
Variable env : Environment.

(** [m_endpoint->f (...)] on the execution thread: reads [m_endpoint] and
    enters the blocking call [c]. *)
Definition enter_serve (c : ServeCall) (parked : RunPc) (w : World)
  : RunPc * World :=
  let w' := note run_tid (ALoad (m_endpoint w)) w in
  if alive (m_endpoint w) w
  then (parked, note run_tid (ACall c) w')
  else (RunFault, w').

(** The blocking call [c] ends as the transport decides; [caught m] is
    where the [catch (websocketpp::exception& e)] clause around the call
    leads, and the call's normal successor is line 117 for both calls
    ([break] leaves the [for (;;)]). *)
Definition leave_serve (c : ServeCall) (caught : string -> RunPc) (w : World)
  : option (RunPc * World) :=
  match transport w with
  | [] => None
  | o :: rest =>
      let w' := note run_tid (AOutcome c o) (set_transport rest w) in
      Some (match o with
            | Returns => L117
            | Raises (websocketpp_exception m) => caught m
            | Raises (foreign_exception m) => Unwound (foreign_exception m)
            end, w')
  end.

Definition run_step (pc : RunPc) (w : World) : option (RunPc * World) :=
  match pc with
  | L76 =>
      Some (L81, WriteLog run_tid lsINFO (startup_message port_) w)
  | L81 =>
      match handler_ctor env with
      | None => Some (L86, note run_tid ANewHandler w)
      | Some e => Some (Unwound e, w)
      end
  | L86 =>
      option_map (pair L88) (acquire run_tid w)
  | L88 =>
      match endpoint_ctor env with
      | None =>
          Some (L89,
                note run_tid (AStore pointer)
                  (set_endpoint pointer
                     (note run_tid AMakeShared (set_use_count 1 w))))
      | Some e =>
          (* the lock_guard is destroyed during unwinding *)
          match release run_tid w with
          | Some w' => Some (Unwound e, w')
          | None => Some (RunFault, w)
          end
      end
  | L89 =>
      match release run_tid w with
      | Some w' => Some (L94, w')
      | None => Some (RunFault, w)
      end
  | L94 => Some (enter_serve listen L94_blocked w)
  | L94_blocked => leave_serve listen L98 w
  | L98 m => Some (L106, WriteLog run_tid lsWARNING (warning_message m) w)
  | L106 => Some (enter_serve io_service_run L106_blocked w)
  | L106_blocked => leave_serve io_service_run L111 w
  | L111 m => Some (L106, WriteLog run_tid lsWARNING (warning_message m) w)
  | L117 =>
      option_map (pair L119) (acquire run_tid w)
  | L119 =>
      Some (L120,
            note run_tid (AStore nullptr)
              (set_endpoint nullptr (drop_owner (m_endpoint w) w)))
  | L120 =>
      match release run_tid w with
      | Some w' => Some (L122, w')
      | None => Some (RunFault, w)
      end
  | L122 =>
      Some (Returned,
            note run_tid AStopped (set_stopped_calls (S (stopped_calls w)) w))
  | Returned | Unwound _ | RunFault => None
  end.

End Run.

(** ** [WSDoorImp::onStop] *)

(** Program points of [onStop].  [L139_blocked]: inside [endpoint->stop ()],
    which may take arbitrarily long to return; [L142]: the closing brace,
    where the local [endpoint] is destroyed. *)
Inductive StopPc : Type :=
| L130 | L132 | L133 | L138 | L139_blocked | L141 | L142
| StopReturned
| StopFault.

(** One invocation of [onStop]: its program point and its local variable
    [endpoint] (line 127, initially null). *)
Record Invocation : Type := mkInvocation
  { spc : StopPc;
    endpoint : shared_ptr }.

Definition fresh_invocation : Invocation := mkInvocation L130 nullptr.

Definition onStop_step (me : tid) (inv : Invocation) (w : World)
  : option (Invocation * World) :=
  match spc inv with
  | L130 =>
      option_map (pair (mkInvocation L132 (endpoint inv))) (acquire me w)
  | L132 =>
      (* endpoint = m_endpoint: the copy becomes one more owner *)
      Some (mkInvocation L133 (m_endpoint w),
            note me (ALoad (m_endpoint w))
              (drop_owner (endpoint inv)
                 (set_use_count (use_count w + owners (m_endpoint w)) w)))
  | L133 =>
      match release me w with
      | Some w' => Some (mkInvocation L138 (endpoint inv), w')
      | None => Some (mkInvocation StopFault (endpoint inv), w)
      end
  | L138 =>
      match endpoint inv with
      | nullptr => Some (mkInvocation L141 nullptr, w)
      | pointer =>
          if alive pointer w
          then Some (mkInvocation L139_blocked pointer,
                     note me AStop
                       (set_stop_requests (S (stop_requests w)) w))
          else Some (mkInvocation StopFault pointer, w)
      end
  | L139_blocked =>
      Some (mkInvocation L141 (endpoint inv), note me AStopDone w)
  | L141 =>
      Some (mkInvocation L142 (endpoint inv),
            note me ASignalExit (set_exit_flag true w))
  | L142 =>
      Some (mkInvocation StopReturned nullptr,
            note me (ADrop (endpoint inv)) (drop_owner (endpoint inv) w))
  | StopReturned | StopFault => None
  end.

(** ** The listener as a system of threads *)

Record State : Type := mkState
  { world : World;
    rpc : RunPc;
    callers : list Invocation }.

Fixpoint update {A : Type} (i : nat) (x : A) (l : list A) : list A :=
  match l, i with
  | [], _ => []
  | _ :: r, 0 => x :: r
  | y :: r, S j => y :: update j x r
  end.

Section System.

Context {Address : Type} `{AddressOps Address}.
Variable port_ : Port Address.
Variable env : Environment.

(** One step of thread [t]; [None] when [t] waits, has finished, or does
    not exist. *)
Definition step (t : tid) (s : State) : option State :=
  match t with
  | 0 =>
      match run_step port_ env (rpc s) (world s) with
      | Some (pc', w') => Some (mkState w' pc' (callers s))
      | None => None
      end
  | S i =>
      match nth_error (callers s) i with
      | Some inv =>
          match onStop_step (caller i) inv (world s) with
          | Some (inv', w') =>
              Some (mkState w' (rpc s) (update i inv' (callers s)))
          | None => None
          end
      | None => None
      end
  end.

(** A schedule names the thread to run at each moment; a thread that
    cannot step is passed over. *)
Fixpoint exec (schedule : list tid) (s : State) : State :=
  match schedule with
  | [] => s
  | t :: rest =>
      exec rest (match step t s with Some s' => s' | None => s end)
  end.

End System.

(** The object as its constructor leaves it: [m_endpoint] null, the lock
    free, the thread started and about to enter [run]; [o] is what the
    transport will answer, [k] the number of [onStop] invocations to
    come. *)
Definition initial_world (o : list Outcome) : World :=
  mkWorld nullptr None false 0 0 [] 0 o [].

Definition initial (o : list Outcome) (k : nat) : State :=
  mkState (initial_world o) L76 (repeat fresh_invocation k).

(** ** The constructor and the factory *)

(** What each step of [WSDoorImp]'s constructor does when reached, in the
    order C++ runs them: the base [WSDoor (source)], the base [Thread
    ("websocket")], the member [port_ (std::make_shared<HTTP::Port> (port))]
    and, in the body, [startThread ()]. *)
Record Construction : Type := mkConstruction
  { base_WSDoor : may_throw;
    base_Thread : may_throw;
    make_shared_Port : may_throw;
    startThread : may_throw }.

(** A constructed listener: its copy of the port configuration and the
    state of its threads. *)
Record WSDoorImp (Address : Type) : Type := mkWSDoorImp
  { port_ : Port Address;
    listener : State }.
Arguments mkWSDoorImp {Address} _ _.
Arguments port_ {Address} _.
Arguments listener {Address} _.

Definition WSDoorImp_ctor {Address : Type} (c : Construction)
  (port : Port Address) (o : list Outcome) (k : nat)
  : result (WSDoorImp Address) :=
  bind (attempt (base_WSDoor c)) (fun _ =>
  bind (attempt (base_Thread c)) (fun _ =>
  bind (attempt (make_shared_Port c)) (fun _ =>
  bind (attempt (startThread c)) (fun _ =>
  Normal (mkWSDoorImp port (initial o k)))))).

(** [make_WSDoor]: [door] starts null, is assigned inside [try], and is
    returned after an empty [catch (...)]. *)
Definition make_WSDoor {Address : Type} (c : Construction)
  (port : Port Address) (o : list Outcome) (k : nat)
  : result (option (WSDoorImp Address)) :=
  let door : option (WSDoorImp Address) := None in
  bind
    (try_catch_all
       (bind (WSDoorImp_ctor c port o k) (fun d => Normal (Some d)))
       (fun _ => Normal door))
    (fun door => Normal door).

(** ** Reading histories *)

(** The log in the order its lines were written. *)
Definition log (w : World) : list LogLine := rev (journal w).

(** How many times [t] holds the lock after the events [h] (most recent
    first): its lock actions less its unlock actions. *)
Fixpoint lock_depth (t : tid) (h : list event) : nat :=
  match h with
  | [] => 0
  | e :: earlier =>
      if Nat.eqb (who e) t
      then match what e with
           | ALock => S (lock_depth t earlier)
           | AUnlock => pred (lock_depth t earlier)
           | _ => lock_depth t earlier
           end
      else lock_depth t earlier
  end.

(** An action that reads or writes [m_endpoint]. *)
Definition touches_endpoint (a : action) : bool :=
  match a with
  | AStore _ | ALoad _ => true
  | _ => false
  end.

(** Classes of actions, for counting and selecting events. *)
Definition is_lock_action (a : action) : bool :=
  match a with
  | ALock | AUnlock => true
  | _ => false
  end.

Definition writes_endpoint (a : action) : bool :=
  match a with
  | AStore _ => true
  | _ => false
  end.

Definition is_stopped (a : action) : bool :=
  match a with
  | AStopped => true
  | _ => false
  end.

Definition is_retry (a : action) : bool :=
  match a with
  | ACall io_service_run => true
  | _ => false
  end.

Definition is_serve_call (a : action) : bool :=
  match a with
  | ACall _ => true
  | _ => false
  end.

(** How many events of [h] are actions [f]. *)
Definition count (f : action -> bool) (h : list event) : nat :=
  length (filter (fun e => f (what e)) h).

(** Every event of a history (most recent first) satisfies [P], which is
    told what happened before the event. *)
Definition each_event (P : list event -> event -> Prop) (h : list event)
  : Prop :=
  forall later e earlier, h = (later ++ e :: earlier)%list -> P earlier e.

(** In the history [h], whoever touches [m_endpoint] in a way selected by
    [sel] holds the lock at that moment. *)
Definition under_lock (sel : event -> bool) (h : list event) : Prop :=
  each_event
    (fun earlier e =>
       sel e = true -> touches_endpoint (what e) = true ->
       0 < lock_depth (who e) earlier) h.

(** The same as a test, for concrete histories. *)
Fixpoint under_lockb (sel : event -> bool) (h : list event) : bool :=
  match h with
  | [] => true
  | e :: earlier =>
      (negb (sel e && touches_endpoint (what e))
       || Nat.ltb 0 (lock_depth (who e) earlier))
      && under_lockb sel earlier
  end.

(** Selections of events: all of them, those of [onStop] callers, the
    writes of [m_endpoint], the last two together. *)
Definition anyone (e : event) : bool := true.
Definition by_onStop (e : event) : bool := negb (Nat.eqb (who e) run_tid).
Definition a_write (e : event) : bool := writes_endpoint (what e).
Definition write_or_onStop (e : event) : bool := a_write e || by_onStop e.

(** ** Sample data *)

(** Dotted-quad addresses, for the examples. *)
Definition IPv4 : Type := (N * N * N * N)%type.

Definition ipv4_to_string (a : IPv4) : string :=
  let '(a1, a2, a3, a4) := a in
  to_string a1 ++ "." ++ to_string a2 ++ "." ++ to_string a3 ++ "." ++
    to_string a4.

#[export] Instance IPv4_ops : AddressOps IPv4 :=
  {| address_to_string := ipv4_to_string |}.

Definition peer_ws : Port IPv4 := mkPort "peer-ws" (127, 0, 0, 1)%N 6206 false.
Definition admin_ws : Port IPv4 := mkPort "admin" (0, 0, 0, 0)%N 6006 true.

(** Constructions that succeed, and ones that throw. *)
Definition sound : Environment := mkEnvironment None None.
Definition no_handler : Environment :=
  mkEnvironment (Some (foreign_exception "std::bad_alloc")) None.
Definition no_endpoint : Environment :=
  mkEnvironment None (Some (websocketpp_exception "endpoint")).
Definition smooth : Construction := mkConstruction None None None None.
Definition no_thread : Construction :=
  mkConstruction None None None (Some (foreign_exception "thread")).

(** The execution thread alone, and one [onStop] caller alone. *)
Definition alone (t : tid) (n : nat) : list tid := repeat t n.

(** ** What holds of every state the listener can reach *)

(** Program points between taking [m_endpointLock] and releasing it. *)
Definition run_in_cs (pc : RunPc) : bool :=
  match pc with
  | L88 | L89 | L119 | L120 => true
  | _ => false
  end.

Definition stop_in_cs (pc : StopPc) : bool :=
  match pc with
  | L132 | L133 => true
  | _ => false
  end.

Definition in_cs (s : State) (t : tid) : bool :=
  match t with
  | 0 => run_in_cs (rpc s)
  | S i =>
      match nth_error (callers s) i with
      | Some inv => stop_in_cs (spc inv)
      | None => false
      end
  end.

(** The owners of the endpoint object among the locals of [onStop]. *)
Definition holders (l : list Invocation) : nat :=
  list_sum (map (fun inv => owners (endpoint inv)) l).

(** What [m_endpoint] is at each program point of [run]; nothing is known
    once an exception has left [run]. *)
Definition published (pc : RunPc) : option shared_ptr :=
  match pc with
  | L76 | L81 | L86 | L88 => Some nullptr
  | L89 | L94 | L94_blocked | L98 _ | L106 | L106_blocked | L111 _
  | L117 | L119 => Some pointer
  | L120 | L122 | Returned => Some nullptr
  | Unwound _ | RunFault => None
  end.

(** Program points of [run] before the endpoint object is made. *)
Definition unmade (pc : RunPc) : bool :=
  match pc with
  | L76 | L81 | L86 | L88 => true
  | _ => false
  end.

(** Program points of [run] after the blocking call has returned. *)
Definition tearing_down (pc : RunPc) : bool :=
  match pc with
  | L117 | L119 | L120 | L122 | Returned => true
  | _ => false
  end.

(** Program points of [onStop] at which the local [endpoint] has not been
    assigned yet or is gone. *)
Definition without_copy (pc : StopPc) : bool :=
  match pc with
  | L130 | L132 | StopReturned => true
  | _ => false
  end.

(** Program points of [onStop] from the test of line 138 to the return of
    [endpoint->stop ()]. *)
Definition stopping (pc : StopPc) : bool :=
  match pc with
  | L138 | L139_blocked => true
  | _ => false
  end.

Definition signalled (pc : StopPc) : bool :=
  match pc with
  | L142 | StopReturned => true
  | _ => false
  end.

Record Inv (s : State) : Prop := mkInv
  { inv_lock : forall t,
      in_cs s t = true <-> m_endpointLock (world s) = Some (t, 1);
    inv_shape : forall t d, m_endpointLock (world s) = Some (t, d) -> d = 1;
    inv_depth : forall t,
      lock_depth t (history (world s)) = if in_cs s t then 1 else 0;
    inv_count :
      use_count (world s) = owners (m_endpoint (world s)) + holders (callers s);
    inv_published : forall p,
      published (rpc s) = Some p -> m_endpoint (world s) = p;
    inv_unmade : unmade (rpc s) = true -> use_count (world s) = 0;
    inv_run_ok : rpc s <> RunFault;
    inv_stop_ok : forall i inv,
      nth_error (callers s) i = Some inv -> spc inv <> StopFault;
    inv_local : forall i inv,
      nth_error (callers s) i = Some inv ->
      without_copy (spc inv) = true -> endpoint inv = nullptr }.

(** The most recent value stored to, or loaded by [t] from, [m_endpoint]
    in a history (most recent first). *)
Fixpoint last_store (h : list event) : option shared_ptr :=
  match h with
  | [] => None
  | e :: earlier =>
      match what e with
      | AStore v => Some v
      | _ => last_store earlier
      end
  end.

Fixpoint last_load (t : tid) (h : list event) : option shared_ptr :=
  match h with
  | [] => None
  | e :: earlier =>
      match what e with
      | ALoad v => if Nat.eqb (who e) t then Some v else last_load t earlier
      | _ => last_load t earlier
      end
  end.

(** What [m_endpoint] holds after a history: the last value stored, null
    before any store. *)
Definition stored (h : list event) : shared_ptr :=
  match last_store h with
  | Some v => v
  | None => nullptr
  end.



Definition info_lines (l : list LogLine) : list LogLine :=
  filter (fun x => severity_eqb (fst x) lsINFO) l.

Definition failures (msgs : list string) : list Outcome :=
  map (fun m => Raises (websocketpp_exception m)) msgs.

Definition warnings (msgs : list string) : list LogLine :=
  map (fun m => (lsWARNING, warning_message m)) msgs.

(** Either construction of [run] throws [e]. *)
Definition construction_fails (env : Environment) (e : exn) : Prop :=
  handler_ctor env = Some e \/
  (handler_ctor env = None /\ endpoint_ctor env = Some e).

(** *** What the history tells about each thread *)

Definition is_stop (a : action) : bool :=
  match a with
  | AStop => true
  | _ => false
  end.

Definition is_signal (a : action) : bool :=
  match a with
  | ASignalExit => true
  | _ => false
  end.

(** How many events of [h] are actions [f] of thread [t]. *)
Definition count_by (t : tid) (f : action -> bool) (h : list event) : nat :=
  length (filter (fun e => Nat.eqb (who e) t && f (what e)) h).

(** The end of the most recent blocking call in a history. *)
Fixpoint last_outcome (h : list event) : option Outcome :=
  match h with
  | [] => None
  | e :: earlier =>
      match what e with
      | AOutcome _ o => Some o
      | _ => last_outcome earlier
      end
  end.

(** Program points of [onStop] after line 132 has executed. *)
Definition copied (pc : StopPc) : bool :=
  match pc with
  | L130 | L132 => false
  | _ => true
  end.

(** Program points of [onStop] after [endpoint->stop ()] was entered, when
    it was. *)
Definition past_stop (pc : StopPc) : bool :=
  match pc with
  | L139_blocked | L141 | L142 | StopReturned => true
  | _ => false
  end.

(** The account of one invocation of [onStop] by thread [t]: what it has
    read from [m_endpoint], and how often it has asked the endpoint to stop
    and signalled the thread, all as functions of its program point. *)
Record CallerStory (t : tid) (inv : Invocation) (w : World) : Prop :=
  mkCallerStory
  { cs_loaded :
      if copied (spc inv) then last_load t (history w) <> None
      else last_load t (history w) = None;
    cs_copy :
      without_copy (spc inv) = false ->
      last_load t (history w) = Some (endpoint inv);
    cs_stops :
      count_by t is_stop (history w) =
      if past_stop (spc inv)
      then match last_load t (history w) with
           | Some v => owners v
           | None => 0
           end
      else 0;
    cs_blocked : spc inv = L139_blocked -> endpoint inv = pointer;
    cs_signals :
      count_by t is_signal (history w) = if signalled (spc inv) then 1 else 0;
    cs_flag : signalled (spc inv) = true -> threadShouldExit w = true }.

(** The account of the execution thread. *)
Record RunStory {Address : Type} `{AddressOps Address} (cfg : Port Address)
  (s : State) : Prop := mkRunStory
  { rs_stopped :
      stopped_calls (world s) =
      match rpc s with Returned => 1 | _ => 0 end;
    rs_counted :
      count is_stopped (history (world s)) = stopped_calls (world s);
    rs_after_clear :
      each_event
        (fun earlier e =>
           what e = AStopped ->
           who e = run_tid /\ last_store earlier = Some nullptr)
        (history (world s));
    rs_cleared :
      match rpc s with
      | L120 | L122 | Returned => last_store (history (world s)) = Some nullptr
      | _ => True
      end;
    rs_returns :
      tearing_down (rpc s) = true ->
      last_outcome (history (world s)) = Some Returns;
    rs_info :
      info_lines (journal (world s)) =
      match rpc s with
      | L76 => []
      | _ => [(lsINFO, startup_message cfg)]
      end;
    rs_current : m_endpoint (world s) = stored (history (world s));
    rs_loads :
      each_event
        (fun earlier e => forall v, what e = ALoad v -> v = stored earlier)
        (history (world s));
    rs_own_reads :
      each_event
        (fun earlier e =>
           who e = run_tid -> forall v, what e = ALoad v ->
           lock_depth run_tid earlier = 0)
        (history (world s));
    rs_under_lock : under_lock write_or_onStop (history (world s));
    rs_stop_unlocked :
      each_event
        (fun earlier e =>
           what e = AStop ->
           who e <> run_tid /\
           lock_depth (who e) earlier = 0 /\
           last_load (who e) earlier = Some pointer)
        (history (world s)) }.

Record Story {Address : Type} `{AddressOps Address} (cfg : Port Address)
  (s : State) : Prop := mkStory
  { story_inv : Inv s;
    story_run : RunStory cfg s;
    story_callers : forall i inv,
      nth_error (callers s) i = Some inv -> CallerStory (caller i) inv (world s) }.

(** ** One thread running by itself *)

Section Alone.

Context {Address : Type} `{AddressOps Address}.
Variable port_ : Port Address.
Variable env : Environment.

(** [n] steps of [run], stopping early where it waits or has ended. *)
Fixpoint run_for (n : nat) (pc : RunPc) (w : World) : RunPc * World :=
  match n with
  | 0 => (pc, w)
  | S m =>
      match run_step port_ env pc w with
      | Some (pc', w') => run_for m pc' w'
      | None => (pc, w)
      end
  end.

End Alone.

(** [n] steps of one invocation of [onStop]. *)
Fixpoint onStop_for (n : nat) (me : tid) (inv : Invocation) (w : World)
  : Invocation * World :=
  match n with
  | 0 => (inv, w)
  | S m =>
      match onStop_step me inv w with
      | Some (inv', w') => onStop_for m me inv' w'
      | None => (inv, w)
      end
  end.

(** [w'] is [w] after the failures [msgs] were caught and logged, the call
    re-entered each time, and the call then returned, leaving [rest] of the
    transport's answers. *)
Record Retried (msgs : list string) (rest : list Outcome) (w w' : World)
  : Prop := mkRetried
  { rt_endpoint : m_endpoint w' = m_endpoint w;
    rt_lock : m_endpointLock w' = m_endpointLock w;
    rt_flag : threadShouldExit w' = threadShouldExit w;
    rt_use : use_count w' = use_count w;
    rt_stops : stop_requests w' = stop_requests w;
    rt_stopped : stopped_calls w' = stopped_calls w;
    rt_journal : journal w' = (rev (warnings msgs) ++ journal w)%list;
    rt_transport : transport w' = rest;
    rt_retries :
      count is_retry (history w') = length msgs + count is_retry (history w);
    rt_calls :
      count is_serve_call (history w') =
      length msgs + count is_serve_call (history w) }.

(** *** How far [run] has got through the transport's answers *)

(** The answer [run] holds at a program point without having acted on it
    yet in the log: the exception in a handler, the return that ended the
    loop. *)
Definition pending (pc : RunPc) : list Outcome :=
  match pc with
  | L98 m | L111 m => [Raises (websocketpp_exception m)]
  | L117 | L119 | L120 | L122 | Returned => [Returns]
  | _ => []
  end.

(** Program points before the first blocking call is entered. *)
Definition before_serve (pc : RunPc) : bool :=
  match pc with
  | L76 | L81 | L86 | L88 | L89 | L94 => true
  | _ => false
  end.

(** The number of blocking calls entered so far, when [n] failures have
    been logged. *)
Definition calls_at (pc : RunPc) (n : nat) : nat :=
  if before_serve pc then 0
  else match pc with
       | L106 => n
       | _ => S n
       end.

Definition unwound (pc : RunPc) : bool :=
  match pc with
  | Unwound _ | RunFault => true
  | _ => false
  end.

(** While [run] has not been left by an exception: the transport's answers
    [o] are the failures logged so far, then what [run] holds, then what is
    still to come; the log is the startup line and one warning per logged
    failure; every logged failure has been followed by a re-entry. *)
Record Flow {Address : Type} `{AddressOps Address} (cfg : Port Address)
  (o : list Outcome) (s : State) (done : list string) : Prop := mkFlow
  { fl_answers :
      o = (failures done ++ pending (rpc s) ++ transport (world s))%list;
    fl_journal :
      journal (world s) =
      (rev (warnings done) ++
       match rpc s with
       | L76 => []
       | _ => [(lsINFO, startup_message cfg)]
       end)%list;
    fl_calls :
      count is_serve_call (history (world s)) = calls_at (rpc s) (length done);
    fl_retries :
      count is_retry (history (world s)) =
      pred (calls_at (rpc s) (length done));
    fl_first :
      match rpc s with
      | L106 => done <> []
      | L106_blocked | L111 _ | L117 | L119 | L120 | L122 | Returned => True
      | _ => done = []
      end }.

(** ** Further notions, for the properties beyond the claims *)

(** [run] is over: it returned, or an exception left it. *)
Definition run_ended (pc : RunPc) : bool :=
  match pc with
  | Returned | Unwound _ => true
  | _ => false
  end.


(** The invocations that are past the test of line 138. *)
Definition past_138 (l : list Invocation) : nat :=
  length (filter (fun inv => past_stop (spc inv)) l).

(** The invocations that have signalled the thread. *)
Definition have_signalled (l : list Invocation) : bool :=
  existsb (fun inv => signalled (spc inv)) l.

(** Program points at which [run] is parked in a blocking call, and those
    at which it takes the lock. *)
Definition parked (pc : RunPc) : bool :=
  match pc with
  | L94_blocked | L106_blocked => true
  | _ => false
  end.

Definition locking (pc : RunPc) : bool :=
  match pc with
  | L86 | L117 => true
  | _ => false
  end.

(** The last character of a string. *)
Fixpoint last_char (s : string) : option ascii :=
  match s with
  | EmptyString => None
  | String c EmptyString => Some c
  | String _ r => last_char r
  end.

(** The stores to [m_endpoint] so far, as [run]'s program point tells:
    none before line 88 has executed, the one of line 88 until line 119
    has, at most two ever; a non-null value is stored only as the first
    store, null only over a non-null value, both by the execution thread. *)
Record Writes (s : State) : Prop := mkWrites
  { wr_none : unmade (rpc s) = true -> last_store (history (world s)) = None;
    wr_set :
      published (rpc s) = Some pointer ->
      last_store (history (world s)) = Some pointer;
    wr_count :
      count writes_endpoint (history (world s)) <=
      (if unmade (rpc s) then 0
       else match published (rpc s) with
            | Some pointer => 1
            | _ => 2
            end);
    wr_each :
      each_event
        (fun earlier e =>
           forall v, what e = AStore v ->
           who e = run_tid /\
           last_store earlier =
             match v with
             | pointer => None
             | nullptr => Some pointer
             end)
        (history (world s)) }.

(** * Proofs *)

(** ** Runs on sample data *)

Example startup_message_peer_ws :
  startup_message peer_ws = "Websocket: 'peer-ws' listening on 127.0.0.1:6206".
Proof. reflexivity. Qed.

Example startup_message_admin_ws :
  startup_message admin_ws = "Websocket: 'admin' listening on 0.0.0.0:6006(Admin)".
Proof. reflexivity. Qed.

Example two_races_then_return :
  let s := exec peer_ws sound (alone run_tid 17)
             (initial (failures ["a"; "b"] ++ [Returns])%list 0) in
  rpc s = Returned /\
  log (world s) =
    [(lsINFO, "Websocket: 'peer-ws' listening on 127.0.0.1:6206");
     (lsWARNING, "websocketpp exception: a");
     (lsWARNING, "websocketpp exception: b")] /\
  stopped_calls (world s) = 1.
Proof. vm_compute. repeat split. Qed.

Example stop_during_service :
  let s := exec peer_ws sound
             (alone run_tid 6 ++ alone (caller 0) 4 ++ alone run_tid 5 ++
              alone (caller 0) 3)%list
             (initial [Returns] 1) in
  rpc s = Returned /\ stop_requests (world s) = 1 /\
  use_count (world s) = 0 /\ threadShouldExit (world s) = true.
Proof. vm_compute. repeat split. Qed.

(** ** Lists and histories *)

Lemma nth_error_update_same {A : Type} (l : list A) (i : nat) (x y : A) :
  nth_error l i = Some y -> nth_error (update i x l) i = Some x.
Proof.
  revert i; induction l as [|a l IH]; intros [|i] Hi; simpl in *;
    try discriminate; auto.
Qed.

Lemma nth_error_update_other {A : Type} (l : list A) (i j : nat) (x : A) :
  i <> j -> nth_error (update i x l) j = nth_error l j.
Proof.
  revert i j; induction l as [|a l IH]; intros [|i] [|j] Hij; simpl;
    try reflexivity; try congruence.
  apply IH; congruence.
Qed.

Lemma nth_error_update {A : Type} (l : list A) (i j : nat) (x y z : A) :
  nth_error l i = Some y ->
  nth_error (update i x l) j = Some z ->
  (j = i /\ z = x) \/ (j <> i /\ nth_error l j = Some z).
Proof.
  intros Hi Hj. destruct (Nat.eq_dec j i) as [->|Hne].
  - rewrite (nth_error_update_same _ _ _ _ Hi) in Hj. left; split; congruence.
  - right; split; auto. rewrite nth_error_update_other in Hj; auto.
Qed.

Lemma holders_update (l : list Invocation) (i : nat) (old new : Invocation) :
  nth_error l i = Some old ->
  holders (update i new l) + owners (endpoint old) =
  holders l + owners (endpoint new).
Proof.
  unfold holders. revert i; induction l as [|a l IH]; intros [|i] Hi;
    simpl in *; try discriminate.
  - injection Hi as ->. lia.
  - specialize (IH _ Hi). lia.
Qed.

Lemma holders_repeat_fresh (k : nat) : holders (repeat fresh_invocation k) = 0.
Proof. unfold holders. induction k; simpl; auto. Qed.

Lemma nth_error_repeat_fresh (k i : nat) (inv : Invocation) :
  nth_error (repeat fresh_invocation k) i = Some inv -> inv = fresh_invocation.
Proof.
  intros Hi. apply nth_error_In in Hi. apply repeat_spec in Hi. exact Hi.
Qed.

Lemma each_event_nil (P : list event -> event -> Prop) : each_event P [].
Proof. intros [|x later] e earlier Heq; discriminate. Qed.

Lemma each_event_cons (P : list event -> event -> Prop) (e : event)
  (h : list event) :
  P h e -> each_event P h -> each_event P (e :: h).
Proof.
  intros He Hh [|x later] e' earlier Heq; simpl in Heq.
  - injection Heq as -> ->. exact He.
  - injection Heq as -> ->. eapply Hh; reflexivity.
Qed.

Lemma each_event_tail (P : list event -> event -> Prop) (e : event)
  (h : list event) :
  each_event P (e :: h) -> P h e /\ each_event P h.
Proof.
  intros Hh. split.
  - apply (Hh [] e h). reflexivity.
  - intros later e' earlier ->. apply (Hh (e :: later) e' earlier). reflexivity.
Qed.

Lemma under_lockb_sound (sel : event -> bool) (h : list event) :
  under_lock sel h -> under_lockb sel h = true.
Proof.
  unfold under_lock. induction h as [|e h IH]; intros Hh; simpl; auto.
  apply each_event_tail in Hh as [He Hh]. rewrite (IH Hh), andb_true_r.
  destruct (sel e); simpl; auto.
  destruct (touches_endpoint (what e)); simpl; auto.
  apply Nat.ltb_lt. auto.
Qed.

(** ** The lock *)

Lemma acquire_some (t : tid) (w w' : World) :
  acquire t w = Some w' ->
  exists d,
    w' = note t ALock (set_lock (Some (t, S d)) w) /\
    (m_endpointLock w = None /\ d = 0 \/ m_endpointLock w = Some (t, d)).
Proof.
  unfold acquire. destruct (m_endpointLock w) as [[o d]|] eqn:Hl.
  - destruct (Nat.eqb o t) eqn:Ho; try discriminate.
    apply Nat.eqb_eq in Ho; subst o. intros [= <-]. exists d; auto.
  - intros [= <-]. exists 0; auto.
Qed.

Lemma acquire_free (t : tid) (w : World) :
  m_endpointLock w = None ->
  acquire t w = Some (note t ALock (set_lock (Some (t, 1)) w)).
Proof. unfold acquire. intros ->. reflexivity. Qed.

Lemma release_some (t : tid) (w w' : World) :
  release t w = Some w' ->
  exists d,
    m_endpointLock w = Some (t, S d) /\
    w' = note t AUnlock
           (set_lock (match d with 0 => None | S _ => Some (t, d) end) w).
Proof.
  unfold release. destruct (m_endpointLock w) as [[o [|d]]|] eqn:Hl;
    try discriminate.
  destruct (Nat.eqb o t) eqn:Ho; try discriminate.
  apply Nat.eqb_eq in Ho; subst o. intros [= <-]. exists d; auto.
Qed.

Lemma release_held (t : tid) (w : World) :
  m_endpointLock w = Some (t, 1) ->
  release t w = Some (note t AUnlock (set_lock None w)).
Proof. unfold release. intros ->. rewrite Nat.eqb_refl. reflexivity. Qed.

Lemma lock_depth_skip (t u : tid) (a : action) (h : list event) :
  is_lock_action a = false ->
  lock_depth t (mkEvent u a :: h) = lock_depth t h.
Proof. intros Ha. simpl. destruct (Nat.eqb u t); destruct a; auto; discriminate. Qed.

Lemma lock_depth_foreign (t u : tid) (a : action) (h : list event) :
  u <> t -> lock_depth t (mkEvent u a :: h) = lock_depth t h.
Proof. intros Hne. simpl. apply Nat.eqb_neq in Hne. rewrite Hne. reflexivity. Qed.

Section Reachable.

Context {Address : Type} `{AddressOps Address}.
Variable cfg : Port Address.
Variable env : Environment.

Lemma exec_invariant (P : State -> Prop) :
  (forall t s s', P s -> step cfg env t s = Some s' -> P s') ->
  forall schedule s, P s -> P (exec cfg env schedule s).
Proof.
  intros Hstep schedule. induction schedule as [|t rest IH]; intros s Hs; simpl.
  - exact Hs.
  - apply IH. destruct (step cfg env t s) as [s'|] eqn:Ht; eauto.
Qed.

Lemma exec_app (l1 l2 : list tid) (s : State) :
  exec cfg env (l1 ++ l2) s = exec cfg env l2 (exec cfg env l1 s).
Proof. revert s; induction l1 as [|t l1 IH]; intros s; simpl; auto. Qed.

Lemma Inv_initial (o : list Outcome) (k : nat) : Inv (initial o k).
Proof.
  constructor; simpl.
  - intros [|i]; simpl; split; try discriminate.
    destruct (nth_error (repeat fresh_invocation k) i) as [inv|] eqn:Hi;
      try discriminate.
    apply nth_error_repeat_fresh in Hi; subst; discriminate.
  - discriminate.
  - intros [|i]; simpl; auto.
    destruct (nth_error (repeat fresh_invocation k) i) as [inv|] eqn:Hi; auto.
    apply nth_error_repeat_fresh in Hi; subst; reflexivity.
  - rewrite holders_repeat_fresh. reflexivity.
  - intros p [= <-]. reflexivity.
  - reflexivity.
  - discriminate.
  - intros i inv Hi. apply nth_error_repeat_fresh in Hi; subst; discriminate.
  - intros i inv Hi _. apply nth_error_repeat_fresh in Hi; subst; reflexivity.
Qed.

(** The three ways a step relates to the lock. *)

Lemma locks_plain (s s' : State) :
  Inv s ->
  (forall t, in_cs s' t = in_cs s t) ->
  m_endpointLock (world s') = m_endpointLock (world s) ->
  (forall t, lock_depth t (history (world s')) =
             lock_depth t (history (world s))) ->
  (forall t, in_cs s' t = true <-> m_endpointLock (world s') = Some (t, 1)) /\
  (forall t d, m_endpointLock (world s') = Some (t, d) -> d = 1) /\
  (forall t, lock_depth t (history (world s')) = if in_cs s' t then 1 else 0).
Proof.
  intros I Hcs Hl Hd. split; [|split].
  - intros t. rewrite Hcs, Hl. apply (inv_lock _ I).
  - intros t d. rewrite Hl. apply (inv_shape _ I).
  - intros t. rewrite Hcs, Hd. apply (inv_depth _ I).
Qed.

Lemma locks_acquire (s s' : State) (t : tid) :
  Inv s ->
  in_cs s t = false -> in_cs s' t = true ->
  (forall u, u <> t -> in_cs s' u = in_cs s u) ->
  acquire t (world s) = Some (world s') ->
  (forall t, in_cs s' t = true <-> m_endpointLock (world s') = Some (t, 1)) /\
  (forall t d, m_endpointLock (world s') = Some (t, d) -> d = 1) /\
  (forall t, lock_depth t (history (world s')) = if in_cs s' t then 1 else 0).
Proof.
  intros I Hout Hin Hothers Ha.
  apply acquire_some in Ha as (d & Hw & Hl).
  assert (Hfree : m_endpointLock (world s) = None /\ d = 0).
  { destruct Hl as [Hl | Hl]; auto.
    pose proof (inv_shape _ I _ _ Hl) as ->.
    apply (inv_lock _ I) in Hl. congruence. }
  destruct Hfree as [Hfree ->]. rewrite Hw; simpl.
  assert (Hnone : forall u, in_cs s u = false).
  { intros u. destruct (in_cs s u) eqn:Hu; auto.
    apply (inv_lock _ I) in Hu. congruence. }
  split; [|split].
  - intros u. destruct (Nat.eq_dec u t) as [->|Hne].
    + rewrite Hin. split; auto.
    + rewrite (Hothers _ Hne), Hnone. split; [discriminate | congruence].
  - intros u d [= <- <-]. reflexivity.
  - intros u. destruct (Nat.eq_dec u t) as [->|Hne].
    + rewrite Hin, Nat.eqb_refl, (inv_depth _ I), Hout. reflexivity.
    + assert (Hb : Nat.eqb t u = false) by (apply Nat.eqb_neq; congruence).
      rewrite Hb, (Hothers _ Hne), (inv_depth _ I). reflexivity.
Qed.

Lemma locks_release (s s' : State) (t : tid) :
  Inv s ->
  in_cs s t = true -> in_cs s' t = false ->
  (forall u, u <> t -> in_cs s' u = in_cs s u) ->
  release t (world s) = Some (world s') ->
  (forall t, in_cs s' t = true <-> m_endpointLock (world s') = Some (t, 1)) /\
  (forall t d, m_endpointLock (world s') = Some (t, d) -> d = 1) /\
  (forall t, lock_depth t (history (world s')) = if in_cs s' t then 1 else 0).
Proof.
  intros I Hin Hout Hothers Hr.
  pose proof (proj1 (inv_lock _ I t) Hin) as Hl.
  rewrite (release_held _ _ Hl) in Hr. injection Hr as Hw. rewrite <- Hw; simpl.
  assert (Hnone : forall u, u <> t -> in_cs s u = false).
  { intros u Hne. destruct (in_cs s u) eqn:Hu; auto.
    apply (inv_lock _ I) in Hu. congruence. }
  split; [|split].
  - intros u. split; [|discriminate].
    destruct (Nat.eq_dec u t) as [->|Hne]; [congruence|].
    rewrite (Hothers _ Hne), (Hnone _ Hne). discriminate.
  - discriminate.
  - intros u. destruct (Nat.eq_dec u t) as [->|Hne].
    + rewrite Hout, Nat.eqb_refl, (inv_depth _ I), Hin. reflexivity.
    + assert (Hb : Nat.eqb t u = false) by (apply Nat.eqb_neq; congruence).
      rewrite Hb, (Hothers _ Hne), (inv_depth _ I). reflexivity.
Qed.

Lemma holds_lock_in_cs (s : State) (t : tid) :
  Inv s -> in_cs s t = true -> release t (world s) <> None.
Proof.
  intros I Hin. apply (inv_lock _ I) in Hin.
  rewrite (release_held _ _ Hin). discriminate.
Qed.

End Reachable.

(** ** Case analysis of a step *)

Ltac fields :=
  cbn [history journal transport stopped_calls stop_requests use_count
       threadShouldExit m_endpointLock m_endpoint WriteLog note set_journal
       set_endpoint set_use_count set_transport set_stopped_calls set_lock
       set_exit_flag set_stop_requests drop_owner world rpc callers
       spc endpoint] in *.

Ltac skip_events :=
  intros; fields; repeat (rewrite lock_depth_skip by reflexivity); reflexivity.

(* every branch of the step function that produced [Hstep] *)
Ltac branches Hstep :=
  repeat match type of Hstep with
    | context [match ?x with _ => _ end] => destruct x eqn:?
    | context [option_map _ ?x] => destruct x eqn:?; simpl in Hstep
    | context [if ?x then _ else _] => destruct x eqn:?
    end;
  inversion Hstep; subst; clear Hstep.

(* the worlds that [acquire] and [release] returned, written out *)
Ltac locks :=
  repeat match goal with
    | Ha : acquire _ _ = Some _ |- _ =>
        apply acquire_some in Ha; destruct Ha as (? & -> & ?)
    | Ha : release _ _ = Some _ |- _ =>
        apply release_some in Ha; destruct Ha as (? & ? & ->)
    end.

Section Preservation.

Context {Address : Type} `{AddressOps Address}.
Variable cfg : Port Address.
Variable env : Environment.

Lemma in_cs_run_step (s : State) (w' : World) (pc' : RunPc) (u : tid) :
  u <> run_tid -> in_cs (mkState w' pc' (callers s)) u = in_cs s u.
Proof. intros Hu. destruct u; [exfalso; apply Hu|]; reflexivity. Qed.


Lemma Inv_run_step (s : State) (pc' : RunPc) (w' : World) :
  Inv s ->
  run_step cfg env (rpc s) (world s) = Some (pc', w') ->
  Inv (mkState w' pc' (callers s)).
Proof.
  intros I Hstep.
  pose proof (in_cs_run_step s w' pc') as Hothers.
  pose proof (inv_count _ I) as Hcount.
  pose proof (inv_published _ I) as Hpub.
  pose proof (holds_lock_in_cs s run_tid I) as Hheld.
  pose proof (inv_unmade _ I) as Hunmade.
  assert (Hlocks :
    (exists w0, w' = w0 /\ run_in_cs pc' = run_in_cs (rpc s) /\
       m_endpointLock w0 = m_endpointLock (world s) /\
       forall t, lock_depth t (history w0) = lock_depth t (history (world s))) \/
    (run_in_cs (rpc s) = false /\ run_in_cs pc' = true /\
       acquire run_tid (world s) = Some w') \/
    (run_in_cs (rpc s) = true /\ run_in_cs pc' = false /\
       release run_tid (world s) = Some w')).
  { simpl in Hheld.
    destruct (rpc s) eqn:Hpc; simpl in Hstep; simpl in Hheld;
      unfold enter_serve, leave_serve in Hstep;
      repeat match type of Hstep with
        | context [match ?x with _ => _ end] => destruct x eqn:?
        | context [option_map _ ?x] => destruct x eqn:?; simpl in Hstep
        | context [if ?x then _ else _] => destruct x eqn:?
        end;
      inversion Hstep; subst; clear Hstep;
      try (exfalso; apply Hheld; reflexivity);
      try (left; eexists; split; [reflexivity | split; [reflexivity | split; [reflexivity | skip_events]]]);
      try (right; left; repeat split; reflexivity);
      try (right; right; repeat split; reflexivity).
  }
  assert (L :
    let s' := mkState w' pc' (callers s) in
    (forall t, in_cs s' t = true <-> m_endpointLock (world s') = Some (t, 1)) /\
    (forall t d, m_endpointLock (world s') = Some (t, d) -> d = 1) /\
    (forall t, lock_depth t (history (world s')) = if in_cs s' t then 1 else 0)).
  { destruct Hlocks as
      [(w0 & <- & Hcs & Hl & Hd) | [(Hout & Hin & Ha) | (Hin & Hout & Hr)]].
    - cbv zeta. apply (locks_plain s); auto. intros [|i]; simpl; auto.
    - cbv zeta. apply (locks_acquire s _ run_tid); auto.
    - cbv zeta. apply (locks_release s _ run_tid); auto. }
  destruct L as (L1 & L2 & L3).
  assert (Hdata :
    use_count w' = owners (m_endpoint w') + holders (callers s) /\
    (forall p, published pc' = Some p -> m_endpoint w' = p) /\
    (unmade pc' = true -> use_count w' = 0) /\
    pc' <> RunFault).
  { simpl in Hheld.
    destruct (rpc s) eqn:Hpc; simpl in Hstep; simpl in Hheld; simpl in Hpub;
      simpl in Hunmade;
      try specialize (Hpub _ eq_refl); try specialize (Hunmade eq_refl);
      unfold enter_serve, leave_serve in Hstep;
      repeat match type of Hstep with
        | context [match ?x with _ => _ end] => destruct x eqn:?
        | context [option_map _ ?x] => destruct x eqn:?; simpl in Hstep
        | context [if ?x then _ else _] => destruct x eqn:?
        end;
      inversion Hstep; subst; clear Hstep;
      try (exfalso; apply Hheld; reflexivity);
      repeat match goal with
        | Ha : acquire _ _ = Some _ |- _ =>
            apply acquire_some in Ha; destruct Ha as (? & -> & _)
        | Ha : release _ _ = Some _ |- _ =>
            apply release_some in Ha; destruct Ha as (? & _ & ->)
        end;
      fields; rewrite ?Hpub in *; simpl in Hcount;
      try (exfalso; unfold alive in *; simpl in *; rewrite Hcount in *;
           discriminate);
      simpl; repeat split; try congruence; try lia. }
  destruct Hdata as (D1 & D2 & D3 & D4).
  constructor; auto.
  - exact (inv_stop_ok _ I).
  - exact (inv_local _ I).
Qed.

Lemma in_cs_onStop_step (s : State) (w' : World) (i : nat)
  (inv inv' : Invocation) (u : tid) :
  nth_error (callers s) i = Some inv ->
  in_cs (mkState w' (rpc s) (update i inv' (callers s))) u =
  if Nat.eqb u (caller i) then stop_in_cs (spc inv') else in_cs s u.
Proof.
  intros Hi. destruct u as [|j]; simpl; auto.
  destruct (Nat.eqb j i) eqn:Hj.
  - apply Nat.eqb_eq in Hj; subst j.
    rewrite (nth_error_update_same _ _ _ _ Hi). reflexivity.
  - apply Nat.eqb_neq in Hj. rewrite nth_error_update_other; auto.
Qed.

Lemma holder_counted (l : list Invocation) (i : nat) (inv : Invocation) :
  nth_error l i = Some inv -> owners (endpoint inv) <= holders l.
Proof.
  intros Hi. pose proof (holders_update l i inv (mkInvocation L130 nullptr) Hi).
  simpl in *. lia.
Qed.

Lemma unmade_published (pc : RunPc) :
  unmade pc = true -> published pc = Some nullptr.
Proof. destruct pc; simpl; auto; discriminate. Qed.

Lemma Inv_onStop_step (s : State) (i : nat) (inv inv' : Invocation)
  (w' : World) :
  Inv s ->
  nth_error (callers s) i = Some inv ->
  onStop_step (caller i) inv (world s) = Some (inv', w') ->
  Inv (mkState w' (rpc s) (update i inv' (callers s))).
Proof.
  intros I Hi Hstep.
  pose proof (in_cs_onStop_step s w' i inv inv') as Hcs.
  pose proof (inv_count _ I) as Hcount.
  pose proof (holds_lock_in_cs s (caller i) I) as Hheld.
  pose proof (inv_local _ I _ _ Hi) as Hlocal.
  pose proof (holders_update _ _ _ inv' Hi) as Hupd.
  pose proof (holder_counted _ _ _ Hi) as Hle.
  assert (Hme : in_cs s (caller i) = stop_in_cs (spc inv))
    by (simpl; rewrite Hi; reflexivity).
  assert (Hothers : forall u, u <> caller i ->
            in_cs (mkState w' (rpc s) (update i inv' (callers s))) u = in_cs s u).
  { intros u Hu. rewrite Hcs by exact Hi. apply Nat.eqb_neq in Hu.
    rewrite Hu. reflexivity. }
  assert (Hmine :
            in_cs (mkState w' (rpc s) (update i inv' (callers s))) (caller i)
            = stop_in_cs (spc inv')).
  { rewrite Hcs by exact Hi. rewrite Nat.eqb_refl. reflexivity. }
  rewrite Hme in Hheld.
  assert (Hlocks :
    (exists w0, w' = w0 /\ stop_in_cs (spc inv') = stop_in_cs (spc inv) /\
       m_endpointLock w0 = m_endpointLock (world s) /\
       forall t, lock_depth t (history w0) = lock_depth t (history (world s))) \/
    (stop_in_cs (spc inv) = false /\ stop_in_cs (spc inv') = true /\
       acquire (caller i) (world s) = Some w') \/
    (stop_in_cs (spc inv) = true /\ stop_in_cs (spc inv') = false /\
       release (caller i) (world s) = Some w')).
  { unfold onStop_step in Hstep.
    destruct (spc inv) eqn:Hpc; simpl in Hheld;
      repeat match type of Hstep with
        | context [match ?x with _ => _ end] => destruct x eqn:?
        | context [option_map _ ?x] => destruct x eqn:?; simpl in Hstep
        | context [if ?x then _ else _] => destruct x eqn:?
        end;
      inversion Hstep; subst; clear Hstep;
      try (exfalso; apply Hheld; reflexivity);
      try (left; eexists; split; [reflexivity | split; [reflexivity | split; [reflexivity | skip_events]]]);
      try (right; left; repeat split; reflexivity);
      try (right; right; repeat split; reflexivity). }
  assert (L :
    let s' := mkState w' (rpc s) (update i inv' (callers s)) in
    (forall t, in_cs s' t = true <-> m_endpointLock (world s') = Some (t, 1)) /\
    (forall t d, m_endpointLock (world s') = Some (t, d) -> d = 1) /\
    (forall t, lock_depth t (history (world s')) = if in_cs s' t then 1 else 0)).
  { destruct Hlocks as
      [(w0 & <- & Hin & Hl & Hd) | [(Hout & Hin & Ha) | (Hin & Hout & Hr)]].
    - cbv zeta. apply (locks_plain s); auto.
      intros u. destruct (Nat.eq_dec u (caller i)) as [->|Hne]; auto.
      rewrite Hmine, Hme. exact Hin.
    - cbv zeta. apply (locks_acquire s _ (caller i)); auto; congruence.
    - cbv zeta. apply (locks_release s _ (caller i)); auto; congruence. }
  destruct L as (L1 & L2 & L3).
  assert (Hdata :
    use_count w' = owners (m_endpoint w') + holders (update i inv' (callers s)) /\
    m_endpoint w' = m_endpoint (world s) /\
    (use_count (world s) = 0 -> m_endpoint (world s) = nullptr ->
     use_count w' = 0) /\
    spc inv' <> StopFault /\
    (without_copy (spc inv') = true -> endpoint inv' = nullptr)).
  { unfold onStop_step in Hstep.
    destruct (spc inv) eqn:Hpc; simpl in Hheld; simpl in Hlocal;
      try specialize (Hlocal eq_refl);
      repeat match type of Hstep with
        | context [match ?x with _ => _ end] => destruct x eqn:?
        | context [option_map _ ?x] => destruct x eqn:?; simpl in Hstep
        | context [if ?x then _ else _] => destruct x eqn:?
        end;
      inversion Hstep; subst; clear Hstep;
      try (exfalso; apply Hheld; reflexivity);
      repeat match goal with
        | Ha : acquire _ _ = Some _ |- _ =>
            apply acquire_some in Ha; destruct Ha as (? & -> & _)
        | Ha : release _ _ = Some _ |- _ =>
            apply release_some in Ha; destruct Ha as (? & _ & ->)
        end;
      fields; simpl in Hupd;
      try match goal with
        | Hp : endpoint inv = _ |- _ => rewrite Hp in *
        end;
      try (exfalso;
           match goal with
           | Hb : alive pointer _ = false |- _ =>
               unfold alive in Hb; cbn [is_set andb] in Hb;
               apply Nat.ltb_ge in Hb; cbn [owners] in Hle; lia
           end);
      simpl in *; repeat split; try congruence; try lia;
      try (intros; destruct (m_endpoint (world s)); simpl in *; lia).
  }
  destruct Hdata as (D1 & D2 & D3 & D4 & D5).
  constructor; auto.
  - intros p Hp. simpl in *. rewrite D2. apply (inv_published _ I _ Hp).
  - intros Hu. simpl in *. apply D3.
    + apply (inv_unmade _ I Hu).
    + apply (inv_published _ I). apply unmade_published. exact Hu.
  - exact (inv_run_ok _ I).
  - intros j x Hj. simpl in Hj.
    destruct (nth_error_update _ _ _ _ _ _ Hi Hj) as [[-> ->] | [_ Hj']]; auto.
    apply (inv_stop_ok _ I _ _ Hj').
  - intros j x Hj. simpl in Hj.
    destruct (nth_error_update _ _ _ _ _ _ Hi Hj) as [[-> ->] | [_ Hj']]; auto.
    apply (inv_local _ I _ _ Hj').
Qed.

Lemma Inv_step (t : tid) (s s' : State) :
  Inv s -> step cfg env t s = Some s' -> Inv s'.
Proof.
  intros I Hstep. destruct t as [|i]; simpl in Hstep.
  - destruct (run_step cfg env (rpc s) (world s)) as [[pc' w']|] eqn:Hr;
      try discriminate.
    injection Hstep as <-. apply Inv_run_step; auto.
  - destruct (nth_error (callers s) i) as [inv|] eqn:Hi; try discriminate.
    destruct (onStop_step (caller i) inv (world s)) as [[inv' w']|] eqn:Hr;
      try discriminate.
    injection Hstep as <-. eapply Inv_onStop_step; eauto.
Qed.

Lemma Inv_exec (o : list Outcome) (k : nat) (schedule : list tid) :
  Inv (exec cfg env schedule (initial o k)).
Proof.
  apply exec_invariant.
  - intros t s s'. apply Inv_step.
  - apply Inv_initial.
Qed.

End Preservation.

(** ** The accounts of the threads *)

Lemma last_load_foreign (t : tid) (e : event) (h : list event) :
  who e <> t -> last_load t (e :: h) = last_load t h.
Proof.
  intros Hne. apply Nat.eqb_neq in Hne. simpl.
  destruct (what e); auto. rewrite Hne. reflexivity.
Qed.

Lemma count_by_foreign (t : tid) (f : action -> bool) (e : event)
  (h : list event) :
  who e <> t -> count_by t f (e :: h) = count_by t f h.
Proof.
  intros Hne. apply Nat.eqb_neq in Hne. unfold count_by. simpl.
  rewrite Hne. reflexivity.
Qed.

Lemma count_by_own (t : tid) (f : action -> bool) (a : action)
  (h : list event) :
  count_by t f (mkEvent t a :: h) = (if f a then 1 else 0) + count_by t f h.
Proof.
  unfold count_by. simpl. rewrite Nat.eqb_refl. simpl.
  destruct (f a); reflexivity.
Qed.

Lemma last_load_grow (t : tid) (evs h : list event) :
  Forall (fun e => who e <> t) evs ->
  last_load t (evs ++ h) = last_load t h.
Proof.
  induction 1 as [|e evs He _ IH]; auto.
  rewrite <- app_comm_cons, last_load_foreign; auto.
Qed.

Lemma count_by_grow (t : tid) (f : action -> bool) (evs h : list event) :
  Forall (fun e => who e <> t) evs ->
  count_by t f (evs ++ h) = count_by t f h.
Proof.
  induction 1 as [|e evs He _ IH]; auto.
  rewrite <- app_comm_cons, count_by_foreign; auto.
Qed.

Lemma CallerStory_foreign (t : tid) (inv : Invocation) (w w' : World)
  (evs : list event) :
  CallerStory t inv w ->
  history w' = (evs ++ history w)%list ->
  Forall (fun e => who e <> t) evs ->
  (threadShouldExit w = true -> threadShouldExit w' = true) ->
  CallerStory t inv w'.
Proof.
  intros [A B C D E F] Hh Hevs Hflag.
  constructor; rewrite ?Hh, ?last_load_grow, ?count_by_grow; auto.
Qed.

Section Stories.

Context {Address : Type} `{AddressOps Address}.
Variable cfg : Port Address.
Variable env : Environment.

(** A step adds events of the stepping thread only, and never lowers the
    exit flag. *)
Lemma step_growth (t : tid) (s s' : State) :
  step cfg env t s = Some s' ->
  exists evs,
    history (world s') = (evs ++ history (world s))%list /\
    Forall (fun e => who e = t) evs /\
    (threadShouldExit (world s) = true -> threadShouldExit (world s') = true).
Proof.
  intros Hstep. destruct t as [|i]; simpl in Hstep.
  - destruct (run_step cfg env (rpc s) (world s)) as [[pc' w']|] eqn:Hr;
      try discriminate.
    injection Hstep as <-. simpl.
    destruct (rpc s); simpl in Hr; unfold enter_serve, leave_serve in Hr;
      branches Hr; locks; fields;
      match goal with
      | |- exists evs, ?l = (evs ++ ?h)%list /\ _ =>
          let rec grab l acc :=
            match l with
            | h => exists (rev acc)
            | ?e :: ?l' => grab l' (e :: acc)
            end in
          grab l (@nil event)
      end; simpl; repeat split; auto.
  - destruct (nth_error (callers s) i) as [inv|] eqn:Hi; try discriminate.
    destruct (onStop_step (caller i) inv (world s)) as [[inv' w']|] eqn:Hr;
      try discriminate.
    injection Hstep as <-. simpl. unfold onStop_step in Hr.
    destruct (spc inv); branches Hr; locks; fields;
      match goal with
      | |- exists evs, ?l = (evs ++ ?h)%list /\ _ =>
          let rec grab l acc :=
            match l with
            | h => exists (rev acc)
            | ?e :: ?l' => grab l' (e :: acc)
            end in
          grab l (@nil event)
      end; simpl; repeat split; auto.
Qed.

Lemma RunStory_initial (o : list Outcome) (k : nat) : RunStory cfg (initial o k).
Proof.
  constructor; simpl; auto; try apply each_event_nil; discriminate.
Qed.

Lemma CallerStory_fresh (t : tid) (o : list Outcome) :
  CallerStory t fresh_invocation (initial_world o).
Proof. constructor; simpl; auto; discriminate. Qed.

Ltac new_events :=
  fields; repeat (apply each_event_cons; [cbn [what who] | ]); try assumption.

Lemma RunStory_run_step (s : State) (pc' : RunPc) (w' : World) :
  Inv s -> RunStory cfg s ->
  run_step cfg env (rpc s) (world s) = Some (pc', w') ->
  RunStory cfg (mkState w' pc' (callers s)).
Proof.
  intros I [A B C D E F M N O G J] Hstep.
  pose proof (inv_depth _ I run_tid) as Hdepth. simpl in Hdepth.
  destruct (rpc s) eqn:Hpc; simpl in Hstep;
    unfold enter_serve, leave_serve in Hstep; branches Hstep; locks;
    simpl in E; simpl in Hdepth;
    (constructor;
     [ fields; simpl; try congruence; try lia
     | fields; unfold count in *; simpl; try congruence; try lia
     | new_events; try (intros; congruence)
     | fields; simpl; auto
     | fields; simpl; auto; try (intros; congruence)
     | fields; simpl; try rewrite F; auto
     | fields; unfold stored in *; simpl; auto
     | new_events; try (intros; congruence)
     | new_events;
       try (unfold caller, run_tid; intros; congruence);
       try (intros; fields;
            repeat (rewrite lock_depth_skip by reflexivity); assumption)
     | unfold under_lock in *; new_events;
       try (cbv; intros; congruence)
     | new_events; try (intros; congruence) ]).
  all: try (intros _ _; fields;
            repeat (rewrite lock_depth_skip by reflexivity);
            rewrite Hdepth; lia).
  all: try (intros _; split; auto).
Qed.

Lemma RunStory_onStop_step (s : State) (i : nat) (inv inv' : Invocation)
  (w' : World) :
  Inv s -> RunStory cfg s ->
  nth_error (callers s) i = Some inv ->
  CallerStory (caller i) inv (world s) ->
  onStop_step (caller i) inv (world s) = Some (inv', w') ->
  RunStory cfg (mkState w' (rpc s) (update i inv' (callers s))).
Proof.
  intros I [A B C D E F M N O G J] Hi [K1 K2 K3 K4 K5 K6] Hstep.
  pose proof (inv_depth _ I (caller i)) as Hdepth.
  simpl in Hdepth. rewrite Hi in Hdepth.
  unfold onStop_step in Hstep.
  destruct (spc inv) eqn:Hpc; branches Hstep; locks;
    simpl in Hdepth; simpl in K2;
    (constructor;
     [ fields; simpl; try congruence; try lia
     | fields; unfold count in *; simpl; try congruence; try lia
     | new_events; try (intros; congruence)
     | fields; simpl; auto
     | fields; simpl; auto; try (intros; congruence)
     | fields; simpl; try rewrite F; auto
     | fields; unfold stored in *; simpl; auto
     | new_events; try (intros; congruence)
     | new_events;
       try (unfold caller, run_tid; intros; congruence);
       try (intros; fields;
            repeat (rewrite lock_depth_skip by reflexivity); assumption)
     | unfold under_lock in *; new_events;
       try (cbv; intros; congruence)
     | new_events; try (intros; congruence) ]).
  all: try (intros _ _; fields;
            repeat (rewrite lock_depth_skip by reflexivity);
            rewrite Hdepth; lia).
  all: try (intros _; repeat split; auto; try discriminate;
            rewrite K2 by reflexivity; congruence).
Qed.

Lemma CallerStory_own_step (i : nat) (inv inv' : Invocation) (w w' : World) :
  CallerStory (caller i) inv w ->
  (without_copy (spc inv) = true -> endpoint inv = nullptr) ->
  onStop_step (caller i) inv w = Some (inv', w') ->
  CallerStory (caller i) inv' w'.
Proof.
  intros [K1 K2 K3 K4 K5 K6] Hlocal Hstep.
  unfold onStop_step in Hstep.
  destruct (spc inv) eqn:Hpc; branches Hstep; locks;
    simpl in K1; simpl in K2; simpl in K3; simpl in K5; simpl in K6;
    simpl in Hlocal;
    try specialize (K2 eq_refl); try specialize (Hlocal eq_refl);
    try specialize (K4 eq_refl); try specialize (K6 eq_refl);
    (constructor; fields; cbn [copied without_copy past_stop signalled];
     unfold caller in *;
     rewrite ?count_by_own; cbn [is_stop is_signal Nat.add];
     cbn [last_load what who]; rewrite ?Nat.eqb_refl;
     try rewrite K2 by reflexivity; rewrite ?K3, ?K5; auto;
     try congruence; try discriminate).
  all: try (rewrite K1 in *; auto).
  all: try (destruct (last_load (S i) (history w)); congruence).
Qed.

Lemma Story_initial (o : list Outcome) (k : nat) : Story cfg (initial o k).
Proof.
  constructor.
  - apply Inv_initial.
  - apply RunStory_initial.
  - intros i inv Hi. simpl in Hi. apply nth_error_repeat_fresh in Hi; subst.
    apply CallerStory_fresh.
Qed.

Lemma Story_step (t : tid) (s s' : State) :
  Story cfg s -> step cfg env t s = Some s' -> Story cfg s'.
Proof.
  intros [I R C] Hstep.
  pose proof (Inv_step cfg env _ _ _ I Hstep) as I'.
  pose proof (step_growth _ _ _ Hstep) as (evs & Hh & Hevs & Hflag).
  destruct t as [|i]; simpl in Hstep.
  - destruct (run_step cfg env (rpc s) (world s)) as [[pc' w']|] eqn:Hr;
      try discriminate.
    injection Hstep as <-. constructor; auto.
    + apply RunStory_run_step; auto.
    + intros j inv Hj. simpl in Hj. simpl in Hh.
      apply (CallerStory_foreign _ _ (world s) _ evs); auto.
      eapply Forall_impl; [|exact Hevs]. simpl. intros e ->. discriminate.
  - destruct (nth_error (callers s) i) as [inv|] eqn:Hi; try discriminate.
    destruct (onStop_step (caller i) inv (world s)) as [[inv' w']|] eqn:Hr;
      try discriminate.
    injection Hstep as <-. constructor; auto.
    + eapply RunStory_onStop_step; eauto.
    + intros j x Hj. simpl in Hj. simpl in Hh.
      destruct (nth_error_update _ _ _ _ _ _ Hi Hj) as [[-> ->] | [Hne Hj']].
      * eapply CallerStory_own_step; eauto. apply (inv_local _ I _ _ Hi).
      * apply (CallerStory_foreign _ _ (world s) _ evs); auto.
        eapply Forall_impl; [|exact Hevs]. simpl. intros e ->.
        unfold caller. congruence.
Qed.

Lemma Story_exec (o : list Outcome) (k : nat) (schedule : list tid) :
  Story cfg (exec cfg env schedule (initial o k)).
Proof.
  apply exec_invariant.
  - intros t s s'. apply Story_step.
  - apply Story_initial.
Qed.

End Stories.

(** ** A thread running by itself *)

Lemma update_same {A : Type} (l : list A) (i : nat) (x : A) :
  nth_error l i = Some x -> update i x l = l.
Proof.
  revert i; induction l as [|a l IH]; intros [|i] Hi; simpl in *;
    try discriminate; auto.
  - congruence.
  - f_equal. auto.
Qed.

Lemma update_update {A : Type} (l : list A) (i : nat) (x y : A) :
  update i x (update i y l) = update i x l.
Proof.
  revert i; induction l as [|a l IH]; intros [|i]; simpl; auto.
  f_equal. auto.
Qed.

Section AloneFacts.

Context {Address : Type} `{AddressOps Address}.
Variable cfg : Port Address.
Variable env : Environment.

Lemma exec_run_alone (n : nat) (s : State) :
  exec cfg env (alone run_tid n) s =
  mkState (snd (run_for cfg env n (rpc s) (world s)))
          (fst (run_for cfg env n (rpc s) (world s))) (callers s).
Proof.
  revert s; induction n as [|n IH]; intros s; simpl.
  - destruct s; reflexivity.
  - destruct (run_step cfg env (rpc s) (world s)) as [[pc' w']|] eqn:Hr.
    + rewrite IH. reflexivity.
    + rewrite IH. simpl. destruct n; simpl; rewrite ?Hr; reflexivity.
Qed.

Lemma exec_onStop_alone (n i : nat) (inv : Invocation) (s : State) :
  nth_error (callers s) i = Some inv ->
  exec cfg env (alone (caller i) n) s =
  mkState (snd (onStop_for n (caller i) inv (world s))) (rpc s)
          (update i (fst (onStop_for n (caller i) inv (world s))) (callers s)).
Proof.
  revert s inv; induction n as [|n IH]; intros s inv Hi; simpl.
  - rewrite (update_same _ _ _ Hi). destruct s; reflexivity.
  - rewrite Hi.
    destruct (onStop_step (caller i) inv (world s)) as [[inv' w']|] eqn:Hr.
    + rewrite (IH _ inv'); simpl.
      * rewrite update_update. reflexivity.
      * apply (nth_error_update_same _ _ _ _ Hi).
    + rewrite (IH _ inv Hi). destruct n; simpl; rewrite ?Hr; reflexivity.
Qed.

Lemma run_for_add (a b : nat) (pc : RunPc) (w : World) :
  run_for cfg env (a + b) pc w =
  run_for cfg env b (fst (run_for cfg env a pc w))
    (snd (run_for cfg env a pc w)).
Proof.
  revert pc w; induction a as [|a IH]; intros pc w; simpl; auto.
  destruct (run_step cfg env pc w) as [[pc' w']|] eqn:Hr; auto.
  simpl. destruct b; simpl; rewrite ?Hr; reflexivity.
Qed.

Lemma run_for_ended (n : nat) (pc : RunPc) (w : World) :
  run_step cfg env pc w = None -> run_for cfg env n pc w = (pc, w).
Proof. intros Hr. destruct n; simpl; rewrite ?Hr; reflexivity. Qed.

(** The retry loop: parked in [get_io_service ().run ()] with [msgs]
    failures and then a return ahead, [run] gets to line 117 having logged
    each failure and re-entered the call after each. *)
Lemma retry_loop (msgs : list string) (rest : list Outcome) (w : World) :
  transport w = (failures msgs ++ Returns :: rest)%list ->
  alive (m_endpoint w) w = true ->
  exists w',
    run_for cfg env (3 * length msgs + 1) L106_blocked w = (L117, w') /\
    Retried msgs rest w w'.
Proof.
  unfold alive.
  revert w; induction msgs as [|m ms IH]; intros w Ht Ha.
  - simpl in *. unfold leave_serve. rewrite Ht. eexists; split; [reflexivity|].
    constructor; reflexivity.
  - replace (3 * length (m :: ms) + 1) with (S (S (S (3 * length ms + 1))))
      by (simpl; lia).
    remember (3 * length ms + 1) as n.
    simpl in Ht. cbn [run_for run_step]. unfold leave_serve. rewrite Ht.
    cbn [run_for run_step]. unfold enter_serve, alive. fields. rewrite Ha.
    match goal with
    | |- exists w', run_for _ _ _ _ ?w3 = _ /\ _ =>
        destruct (IH w3) as (w' & Hrun & R); [reflexivity | exact Ha |]
    end.
    exists w'. split; [subst n; exact Hrun|].
    destruct R as [R1 R2 R3 R4 R5 R6 R7 R8 R9 R10]. fields.
    constructor; auto.
    + rewrite R7. simpl. rewrite <- app_assoc. reflexivity.
    + rewrite R9. unfold count. simpl. lia.
    + rewrite R10. unfold count. simpl. lia.
Qed.

(** The same from the first call, [listen]. *)
Lemma first_call (msgs : list string) (rest : list Outcome) (w : World) :
  transport w = (failures msgs ++ Returns :: rest)%list ->
  alive (m_endpoint w) w = true ->
  exists w',
    run_for cfg env (3 * length msgs + 1) L94_blocked w = (L117, w') /\
    Retried msgs rest w w'.
Proof.
  unfold alive.
  destruct msgs as [|m ms]; intros Ht Ha.
  - simpl in *. unfold leave_serve. rewrite Ht. eexists; split; [reflexivity|].
    constructor; reflexivity.
  - replace (3 * length (m :: ms) + 1) with (S (S (S (3 * length ms + 1))))
      by (simpl; lia).
    remember (3 * length ms + 1) as n.
    simpl in Ht. cbn [run_for run_step]. unfold leave_serve. rewrite Ht.
    cbn [run_for run_step]. unfold enter_serve, alive. fields. rewrite Ha.
    match goal with
    | |- exists w', run_for _ _ _ _ ?w3 = _ /\ _ =>
        destruct (retry_loop ms rest w3) as (w' & Hrun & R);
          [reflexivity | exact Ha |]
    end.
    exists w'. split; [subst n; exact Hrun|].
    destruct R as [R1 R2 R3 R4 R5 R6 R7 R8 R9 R10]. fields.
    constructor; auto.
    + rewrite R7. simpl. rewrite <- app_assoc. reflexivity.
    + rewrite R9. unfold count. simpl. lia.
    + rewrite R10. unfold count. simpl. lia.
Qed.

End AloneFacts.

(** ** The startup message *)





Section Message.

Context {Address : Type} `{AddressOps Address}.






End Message.

(** ** What no step reads *)


Section Unread.

Context {Address : Type} `{AddressOps Address}.
Variable cfg : Port Address.
Variable env : Environment.






End Unread.

(** ** [run] from start to end, [onStop] from call to return *)

Section Completion.

Context {Address : Type} `{AddressOps Address}.
Variable cfg : Port Address.
Variable env : Environment.

(** Lines 76-94: with both constructions succeeding, six steps take [run]
    into [listen]. *)
Lemma run_boot (o : list Outcome) :
  handler_ctor env = None -> endpoint_ctor env = None ->
  exists w,
    run_for cfg env 6 L76 (initial_world o) = (L94_blocked, w) /\
    transport w = o /\
    journal w = [(lsINFO, startup_message cfg)] /\
    alive (m_endpoint w) w = true /\
    m_endpointLock w = None /\
    stopped_calls w = 0 /\
    count is_retry (history w) = 0 /\
    count is_serve_call (history w) = 1.
Proof.
  intros Hh He. simpl. rewrite Hh. simpl. rewrite He. simpl.
  eexists; split; [reflexivity|]. repeat split.
Qed.

(** Lines 117-122: with the lock free, four steps clear the handle and
    call [stopped ()]. *)
Lemma run_teardown (w : World) :
  m_endpointLock w = None ->
  exists w',
    run_for cfg env 4 L117 w = (Returned, w') /\
    m_endpoint w' = nullptr /\
    stopped_calls w' = S (stopped_calls w) /\
    journal w' = journal w /\
    transport w' = transport w /\
    count is_retry (history w') = count is_retry (history w) /\
    count is_serve_call (history w') = count is_serve_call (history w).
Proof.
  intros Hl. cbn [run_for run_step]. rewrite (acquire_free _ _ Hl).
  cbn [option_map run_for run_step]. unfold release; fields; simpl.
  eexists; split; [reflexivity|]. repeat split.
Qed.

Lemma run_finishes (pc : RunPc) (w : World) :
  (pc = L117 /\ m_endpointLock w = None) \/
  ((pc = L119 \/ pc = L120) /\ m_endpointLock w = Some (run_tid, 1)) \/
  pc = L122 \/ pc = Returned ->
  fst (run_for cfg env 4 pc w) = Returned.
Proof.
  intros [[-> Hl] | [[[-> | ->] Hl] | [-> | ->]]].
  - destruct (run_teardown w Hl) as (w' & -> & _). reflexivity.
  - cbn [run_for run_step]. unfold release; fields. rewrite Hl; simpl.
    reflexivity.
  - cbn [run_for run_step]. unfold release; fields. rewrite Hl; simpl.
    reflexivity.
  - reflexivity.
  - reflexivity.
Qed.

(** [run] from its first line to its return. *)
Lemma run_to_completion (msgs : list string) (rest : list Outcome) (n : nat) :
  handler_ctor env = None -> endpoint_ctor env = None ->
  11 + 3 * length msgs <= n ->
  exists w,
    run_for cfg env n L76 (initial_world (failures msgs ++ Returns :: rest)) =
      (Returned, w) /\
    journal w = (rev (warnings msgs) ++ [(lsINFO, startup_message cfg)])%list /\
    count is_retry (history w) = length msgs /\
    count is_serve_call (history w) = S (length msgs) /\
    transport w = rest /\
    m_endpoint w = nullptr /\
    stopped_calls w = 1.
Proof.
  intros Hh He Hn.
  replace n with
    (6 + ((3 * length msgs + 1) + (4 + (n - 11 - 3 * length msgs)))) by lia.
  destruct (run_boot (failures msgs ++ Returns :: rest) Hh He)
    as (w6 & Hboot & B1 & B2 & B3 & B4 & B5 & B6 & B7).
  rewrite run_for_add, Hboot. cbn [fst snd].
  destruct (first_call cfg env msgs rest w6 B1 B3) as (w7 & Hloop & R).
  rewrite run_for_add, Hloop. cbn [fst snd].
  destruct R as [R1 R2 R3 R4 R5 R6 R7 R8 R9 R10].
  assert (Hl : m_endpointLock w7 = None) by congruence.
  destruct (run_teardown w7 Hl) as (w8 & Hdown & T1 & T2 & T3 & T4 & T5 & T6).
  rewrite run_for_add, Hdown. cbn [fst snd].
  rewrite run_for_ended by reflexivity.
  exists w8. split; [reflexivity|].
  repeat split; try congruence; try lia.
Qed.

(** A failing construction ends [run] before anything is published. *)
Lemma run_unwinds (e : exn) (o : list Outcome) (n : nat) :
  construction_fails env e -> 4 <= n ->
  fst (run_for cfg env n L76 (initial_world o)) = Unwound e.
Proof.
  intros Hfail Hn. replace n with (4 + (n - 4)) by lia.
  rewrite run_for_add.
  destruct Hfail as [Hh | [Hh He]].
  - simpl. rewrite Hh. simpl.
    rewrite run_for_ended by reflexivity. reflexivity.
  - simpl. rewrite Hh. simpl. rewrite He. simpl.
    rewrite run_for_ended by reflexivity. reflexivity.
Qed.

Lemma failed_construction (e : exn) (o : list Outcome) (k : nat)
  (schedule : list tid) :
  construction_fails env e ->
  let s := exec cfg env schedule (initial o k) in
  (rpc s = L76 \/ rpc s = L81 \/
   (handler_ctor env = None /\ (rpc s = L86 \/ rpc s = L88)) \/
   rpc s = Unwound e) /\
  last_store (history (world s)) = None.
Proof.
  intros Hfail.
  apply (exec_invariant cfg env
           (fun s =>
              Inv s /\
              (rpc s = L76 \/ rpc s = L81 \/
               (handler_ctor env = None /\ (rpc s = L86 \/ rpc s = L88)) \/
               rpc s = Unwound e) /\
              last_store (history (world s)) = None)).
  - intros t s s' (I & Hpc & Hls) Hstep.
    split; [eapply Inv_step; eauto|].
    pose proof (holds_lock_in_cs s run_tid I) as Hheld.
    destruct t as [|i]; simpl in Hstep.
    + destruct (run_step cfg env (rpc s) (world s)) as [[pc' w']|] eqn:Hr;
        try discriminate.
      injection Hstep as <-. simpl in *.
      destruct Hpc as [Hpc | [Hpc | [[Hh [Hpc | Hpc]] | Hpc]]];
        rewrite Hpc in *; simpl in Hr.
      * injection Hr as <- <-. simpl. intuition.
      * destruct Hfail as [Hh | [Hh He]]; rewrite Hh in Hr;
          injection Hr as <- <-; simpl; intuition.
      * destruct (acquire run_tid (world s)) eqn:Ha; simpl in Hr;
          try discriminate.
        injection Hr as <- <-. locks. simpl. intuition.
      * destruct Hfail as [Hh' | [_ He]]; [congruence|]. rewrite He in Hr.
        destruct (release run_tid (world s)) eqn:Hrel.
        -- injection Hr as <- <-. locks. simpl. intuition.
        -- exfalso. apply Hheld; auto.
      * discriminate.
    + destruct (nth_error (callers s) i) as [inv|] eqn:Hi; try discriminate.
      destruct (onStop_step (caller i) inv (world s)) as [[inv' w']|] eqn:Hr;
        try discriminate.
      injection Hstep as <-. simpl. split; auto.
      unfold onStop_step in Hr.
      destruct (spc inv); branches Hr; locks; fields; simpl; auto.
  - split; [apply Inv_initial|]. simpl. intuition.
Qed.

(** One call of [onStop], made while nobody holds the lock, returns after
    seven steps of its own, having signalled the thread and having asked
    the endpoint to stop when, and only when, [m_endpoint] was set. *)
Lemma onStop_completes (me : tid) (w : World) :
  m_endpointLock w = None ->
  (m_endpoint w = pointer -> 0 < use_count w) ->
  exists w',
    onStop_for 7 me fresh_invocation w =
      (mkInvocation StopReturned nullptr, w') /\
    threadShouldExit w' = true /\
    stop_requests w' = stop_requests w + owners (m_endpoint w) /\
    count_by me is_stop (history w') =
      owners (m_endpoint w) + count_by me is_stop (history w) /\
    count_by me is_signal (history w') = 1 + count_by me is_signal (history w) /\
    m_endpoint w' = m_endpoint w /\
    use_count w' = use_count w /\
    m_endpointLock w' = None /\
    stopped_calls w' = stopped_calls w.
Proof.
  intros Hl Huse. unfold fresh_invocation.
  cbn [onStop_for onStop_step spc endpoint]. rewrite (acquire_free _ _ Hl).
  cbn [option_map onStop_for onStop_step spc endpoint].
  unfold release; fields. rewrite Nat.eqb_refl.
  cbn [onStop_for onStop_step spc endpoint]. fields.
  destruct (m_endpoint w) eqn:Hep.
  - cbn [onStop_for onStop_step spc endpoint]. fields.
    eexists; split; [reflexivity|]. fields.
    rewrite !count_by_own. simpl. repeat split; auto; lia.
  - specialize (Huse eq_refl).
    assert (Hlt : Nat.ltb 0 (use_count w + 1 - 0) = true)
      by (apply Nat.ltb_lt; lia).
    cbn [onStop_for onStop_step spc endpoint]. unfold alive; fields.
    cbn [is_set andb owners]. rewrite Hlt.
    cbn [onStop_for onStop_step spc endpoint]. fields.
    eexists; split; [reflexivity|]. fields.
    rewrite !count_by_own. simpl. repeat split; auto; lia.
Qed.

(** Once the blocking call has returned, [run] can always be brought to its
    return: a caller holding the lock is at line 132 or 133 and gives it
    up by its own steps. *)
Lemma teardown_completes (s : State) :
  Inv s -> tearing_down (rpc s) = true ->
  exists more, rpc (exec cfg env more s) = Returned.
Proof.
  intros I Htd.
  assert (Hgo : forall s1, Inv s1 -> tearing_down (rpc s1) = true ->
            (rpc s1 = L117 -> m_endpointLock (world s1) = None) ->
            rpc (exec cfg env (alone run_tid 4) s1) = Returned).
  { intros s1 I1 Ht1 Hfree. rewrite exec_run_alone. simpl.
    apply run_finishes.
    destruct (rpc s1) eqn:Hpc; try discriminate; auto.
    - right; left. split; auto.
      apply (inv_lock _ I1 run_tid). simpl. rewrite Hpc. reflexivity.
    - right; left. split; auto.
      apply (inv_lock _ I1 run_tid). simpl. rewrite Hpc. reflexivity. }
  destruct (m_endpointLock (world s)) as [[t d]|] eqn:Hl.
  2:{ exists (alone run_tid 4). apply Hgo; auto. }
  pose proof (inv_shape _ I _ _ Hl) as ->.
  pose proof (proj2 (inv_lock _ I t) Hl) as Hin.
  destruct t as [|i].
  { exists (alone run_tid 4). apply Hgo; auto.
    intros Hpc. simpl in Hin. rewrite Hpc in Hin. discriminate. }
  simpl in Hin.
  destruct (nth_error (callers s) i) as [inv|] eqn:Hi; try discriminate.
  exists (alone (caller i) 2 ++ alone run_tid 4)%list.
  rewrite exec_app. apply Hgo.
  - apply exec_invariant; auto. intros u a b. apply Inv_step.
  - rewrite (exec_onStop_alone cfg env _ _ _ _ Hi). exact Htd.
  - intros _. rewrite (exec_onStop_alone cfg env _ _ _ _ Hi). simpl.
    unfold onStop_step.
    destruct (spc inv); try discriminate; unfold release; fields;
      rewrite Hl, ?Nat.eqb_refl; simpl; unfold release; fields;
      rewrite ?Hl, ?Nat.eqb_refl; simpl; try reflexivity.
    destruct (endpoint inv); simpl; auto.
    destruct (alive pointer _); reflexivity.
Qed.

End Completion.

(** ** [run] and the transport's answers, under every schedule *)

Lemma failures_app (a b : list string) :
  failures (a ++ b) = (failures a ++ failures b)%list.
Proof. apply map_app. Qed.

Lemma warnings_snoc (done : list string) (m : string) :
  rev (warnings (done ++ [m])) =
  (lsWARNING, warning_message m) :: rev (warnings done).
Proof. unfold warnings. rewrite map_app, rev_app_distr. reflexivity. Qed.

Lemma failures_then_return (a b : list string) (s t : list Outcome) :
  (failures a ++ Returns :: s)%list = (failures b ++ Returns :: t)%list ->
  a = b /\ s = t.
Proof.
  revert b; induction a as [|x a IH]; intros [|y b] Heq; simpl in Heq;
    try discriminate.
  - injection Heq as ->. auto.
  - injection Heq as -> Heq. destruct (IH _ Heq) as [-> ->]. auto.
Qed.

Section Answers.

Context {Address : Type} `{AddressOps Address}.
Variable cfg : Port Address.
Variable env : Environment.

Lemma Flow_step (o : list Outcome) (t : tid) (s s' : State) :
  (unwound (rpc s) = false -> exists done, Flow cfg o s done) ->
  step cfg env t s = Some s' ->
  unwound (rpc s') = false -> exists done, Flow cfg o s' done.
Proof.
  intros Hflow Hstep Hnot. destruct t as [|i]; simpl in Hstep.
  - destruct (run_step cfg env (rpc s) (world s)) as [[pc' w']|] eqn:Hr;
      try discriminate.
    injection Hstep as <-. simpl in Hnot |- *.
    destruct (rpc s) eqn:Hpc; simpl in Hr;
      unfold enter_serve, leave_serve in Hr; branches Hr; locks;
      try discriminate Hnot;
      destruct (Hflow eq_refl) as (done & [A B C D E]);
      rewrite Hpc in A, B, C, D, E;
      simpl in A, B, C, D, E; fields;
      try match goal with
        | Ht : transport _ = _ |- _ => rewrite Ht in A
        end;
      try (subst done);
      try (exists done; constructor; fields; unfold count in *; simpl;
           auto; fail);
      try (exists (@nil string); constructor; fields; unfold count in *;
           simpl; auto; fail).
    + exists (@nil string).
      constructor; fields; unfold count in *; simpl; auto.
      rewrite B. reflexivity.
    + exists [m]. constructor; fields; unfold count in *; simpl; auto.
      * rewrite B. reflexivity.
      * discriminate.
    + exists done. constructor; fields; unfold count in *; simpl; auto.
      rewrite D. unfold calls_at. simpl.
      destruct done; [congruence | reflexivity].
    + exists (done ++ [m])%list.
      constructor; fields; unfold count in *; simpl.
      * rewrite failures_app, <- app_assoc. exact A.
      * rewrite warnings_snoc, B. reflexivity.
      * rewrite C, length_app. unfold calls_at. simpl. lia.
      * rewrite D, length_app. unfold calls_at. simpl. lia.
      * destruct done; discriminate.
  - destruct (nth_error (callers s) i) as [inv|] eqn:Hi; try discriminate.
    destruct (onStop_step (caller i) inv (world s)) as [[inv' w']|] eqn:Hr;
      try discriminate.
    injection Hstep as <-. simpl in Hnot |- *.
    destruct (Hflow Hnot) as (done & [A B C D E]). exists done.
    unfold onStop_step in Hr.
    destruct (spc inv); branches Hr; locks;
      (constructor; fields; unfold count in *; simpl; auto).
Qed.

Lemma Flow_exec (o : list Outcome) (k : nat) (schedule : list tid) :
  let s := exec cfg env schedule (initial o k) in
  unwound (rpc s) = false -> exists done, Flow cfg o s done.
Proof.
  apply (exec_invariant cfg env
           (fun s => unwound (rpc s) = false -> exists done, Flow cfg o s done)).
  - intros t s s'. apply Flow_step.
  - intros _. exists (@nil string). constructor; reflexivity.
Qed.

End Answers.

(** * The claims *)

Lemma under_lock_weaken (sel sel' : event -> bool) (h : list event) :
  (forall e, sel' e = true -> sel e = true) ->
  under_lock sel h -> under_lock sel' h.
Proof.
  intros Hsel Hu later e earlier Heq Hs Ht.
  apply (Hu later e earlier Heq); auto.
Qed.

Lemma each_event_impl (P Q : list event -> event -> Prop) (h : list event) :
  (forall earlier e, P earlier e -> Q earlier e) ->
  each_event P h -> each_event Q h.
Proof. intros HPQ HP later e earlier Heq. apply HPQ. eapply HP; eauto. Qed.


Section Claims.

Context {Address : Type} `{AddressOps Address}.
Variable cfg : Port Address.
Variable env : Environment.

(** C1, as amended.  Let the transport answer the blocking calls with the
    [websocketpp::exception]s [msgs] and then a return.  When both
    constructions succeed, [run] by itself returns within [11 + 3 * length
    msgs] steps, for every length of [msgs].  Under every schedule, once
    [run] is past the retry loop it has logged the startup line and then
    one warning per failure, each carrying that failure's [what ()], and
    has re-entered the blocking call once per failure ([length msgs]
    retries, [length msgs + 1] calls); when it has returned, the handle is
    null and [stopped ()] was called once.  And whatever the transport
    answers, [run] is past the retry loop only when the last blocking call
    returned without raising. *)
Theorem run_retries_websocketpp_failures (msgs : list string)
  (rest : list Outcome) (k : nat) :
  handler_ctor env = None -> endpoint_ctor env = None ->
  (forall n, 11 + 3 * length msgs <= n ->
     rpc (exec cfg env (alone run_tid n)
            (initial (failures msgs ++ Returns :: rest) k)) = Returned) /\
  (forall schedule,
     let s := exec cfg env schedule
                (initial (failures msgs ++ Returns :: rest) k) in
     tearing_down (rpc s) = true ->
     log (world s) = (lsINFO, startup_message cfg) :: warnings msgs /\
     count is_retry (history (world s)) = length msgs /\
     count is_serve_call (history (world s)) = S (length msgs) /\
     transport (world s) = rest) /\
  (forall schedule,
     let s := exec cfg env schedule
                (initial (failures msgs ++ Returns :: rest) k) in
     rpc s = Returned ->
     m_endpoint (world s) = nullptr /\ stopped_calls (world s) = 1) /\
  (forall o schedule,
     let s := exec cfg env schedule (initial o k) in
     tearing_down (rpc s) = true ->
     last_outcome (history (world s)) = Some Returns).
Proof.
  intros Hh He. split; [|split; [|split]].
  - intros n Hn. rewrite exec_run_alone. simpl.
    destruct (run_to_completion cfg env msgs rest n Hh He Hn) as (w & -> & _).
    reflexivity.
  - intros schedule s Htd.
    destruct (Flow_exec cfg env (failures msgs ++ Returns :: rest) k schedule)
      as (done & [A B C D E]).
    { fold s. destruct (rpc s); auto; discriminate. }
    fold s in A, B, C, D, E.
    assert (Hp : pending (rpc s) = [Returns])
      by (destruct (rpc s); auto; discriminate).
    assert (Hc : calls_at (rpc s) (length done) = S (length done))
      by (destruct (rpc s); auto; discriminate).
    rewrite Hp in A. simpl in A.
    apply failures_then_return in A as [<- <-].
    rewrite Hc in C, D. unfold log. rewrite B, rev_app_distr, rev_involutive.
    destruct (rpc s); try discriminate; auto.
  - intros schedule s Hret.
    pose proof (Story_exec cfg env (failures msgs ++ Returns :: rest) k schedule)
      as [I R _]. fold s in I, R.
    split.
    + apply (inv_published _ I). rewrite Hret. reflexivity.
    + rewrite (rs_stopped _ _ R), Hret. reflexivity.
  - intros o schedule s Htd.
    apply (rs_returns _ _ (story_run _ _ (Story_exec cfg env o k schedule))).
    exact Htd.
Qed.

(** C2, as amended.  Under every schedule, every write of [m_endpoint] and
    every read of it by [onStop] is made by a thread that holds
    [m_endpointLock] at that moment; the reads [run] itself makes, to enter
    [listen] and [get_io_service ().run ()], are made with the lock not
    held. *)
Theorem endpoint_writes_and_onStop_reads_under_lock (o : list Outcome)
  (k : nat) (schedule : list tid) :
  let s := exec cfg env schedule (initial o k) in
  under_lock write_or_onStop (history (world s)) /\
  each_event
    (fun earlier e =>
       who e = run_tid -> forall v, what e = ALoad v ->
       lock_depth run_tid earlier = 0)
    (history (world s)).
Proof.
  pose proof (story_run _ _ (Story_exec cfg env o k schedule)) as R.
  split; [apply (rs_under_lock _ _ R) | apply (rs_own_reads _ _ R)].
Qed.

(** C3, as amended.  When the handler or the endpoint construction throws
    [e], [run] ends by [e] leaving it after at most four steps; under every
    schedule nothing is ever stored to [m_endpoint], which stays null, and
    [stopped ()] is never called. *)
Theorem failed_construction_is_not_acknowledged (e : exn) (o : list Outcome)
  (k : nat) :
  construction_fails env e ->
  (forall n, 4 <= n ->
     rpc (exec cfg env (alone run_tid n) (initial o k)) = Unwound e) /\
  (forall schedule,
     let s := exec cfg env schedule (initial o k) in
     last_store (history (world s)) = None /\
     m_endpoint (world s) = nullptr /\
     stopped_calls (world s) = 0 /\
     count is_stopped (history (world s)) = 0 /\
     rpc s <> Returned).
Proof.
  intros Hfail. split.
  - intros n Hn. rewrite exec_run_alone. simpl. apply run_unwinds; auto.
  - intros schedule s.
    destruct (failed_construction cfg env e o k schedule Hfail) as [Hpc Hls].
    pose proof (story_run _ _ (Story_exec cfg env o k schedule)) as R.
    fold s in Hpc, Hls, R.
    assert (Hnot : rpc s <> Returned).
    { destruct Hpc as [Hpc | [Hpc | [[_ [Hpc | Hpc]] | Hpc]]];
        rewrite Hpc; discriminate. }
    assert (Hzero : stopped_calls (world s) = 0).
    { rewrite (rs_stopped _ _ R). destruct (rpc s); congruence. }
    repeat split; auto.
    + rewrite (rs_current _ _ R). unfold stored. rewrite Hls. reflexivity.
    + rewrite (rs_counted _ _ R). exact Hzero.
Qed.

(** C4.  Under every schedule, [stopped ()] is called at most once, by the
    execution thread only, and at a moment when the last store to
    [m_endpoint] was the [reset ()]; when [run] has returned it was called
    exactly once and the handle is null; and once the blocking call has
    returned cleanly, [run] can always be brought to its return. *)
Theorem stopped_once_after_the_handle_is_cleared (o : list Outcome) (k : nat)
  (schedule : list tid) :
  let s := exec cfg env schedule (initial o k) in
  count is_stopped (history (world s)) <= 1 /\
  each_event
    (fun earlier e =>
       what e = AStopped ->
       who e = run_tid /\ last_store earlier = Some nullptr)
    (history (world s)) /\
  (rpc s = Returned ->
   count is_stopped (history (world s)) = 1 /\ m_endpoint (world s) = nullptr) /\
  (tearing_down (rpc s) = true ->
   last_outcome (history (world s)) = Some Returns /\
   exists more, rpc (exec cfg env more s) = Returned).
Proof.
  intros s.
  pose proof (Story_exec cfg env o k schedule) as [I R _]. fold s in I, R.
  pose proof (rs_stopped _ _ R) as Hs. pose proof (rs_counted _ _ R) as Hc.
  split; [rewrite Hc, Hs; destruct (rpc s); lia|].
  split; [apply (rs_after_clear _ _ R)|].
  split.
  - intros Hret. split.
    + rewrite Hc, Hs, Hret. reflexivity.
    + apply (inv_published _ I). rewrite Hret. reflexivity.
  - intros Htd. split.
    + apply (rs_returns _ _ R Htd).
    + apply teardown_completes; assumption.
Qed.

(** C5.  However many times [onStop] is invoked ([k] invocations, under
    every schedule), [stopped ()] is called at most once, and only by the
    execution thread; and no thread faults: [run] dereferences no null
    handle, no invocation of [onStop] calls [stop ()] on a destroyed
    endpoint or releases a lock it does not hold. *)
Theorem onStop_is_idempotent (o : list Outcome) (k : nat)
  (schedule : list tid) :
  let s := exec cfg env schedule (initial o k) in
  count is_stopped (history (world s)) <= 1 /\
  stopped_calls (world s) <= 1 /\
  each_event (fun _ e => what e = AStopped -> who e = run_tid)
    (history (world s)) /\
  rpc s <> RunFault /\
  (forall i inv, nth_error (callers s) i = Some inv -> spc inv <> StopFault).
Proof.
  intros s.
  pose proof (Story_exec cfg env o k schedule) as [I R _]. fold s in I, R.
  pose proof (rs_stopped _ _ R) as Hs. pose proof (rs_counted _ _ R) as Hc.
  split; [rewrite Hc, Hs; destruct (rpc s); lia|].
  split; [rewrite Hs; destruct (rpc s); lia|].
  split.
  { eapply each_event_impl; [|apply (rs_after_clear _ _ R)].
    simpl. intros earlier e He Hw. apply He. exact Hw. }
  split; [apply (inv_run_ok _ I) | apply (inv_stop_ok _ I)].
Qed.



(** C9.  Under every schedule: whoever enters [endpoint->stop ()] is not
    the execution thread, holds the lock zero times at that moment, and
    last read [m_endpoint] as non-null; that read, like every read by
    [onStop], was made holding the lock.  An invocation that is at line 138
    or inside [stop ()] does not own the lock, and if its copy is non-null
    the endpoint object is alive whatever [m_endpoint] holds by then; and
    if no invocation is between lines 130 and 133, [run] at line 117 takes
    the lock at once. *)
Theorem onStop_stops_the_endpoint_outside_the_lock (o : list Outcome)
  (k : nat) (schedule : list tid) :
  let s := exec cfg env schedule (initial o k) in
  each_event
    (fun earlier e =>
       what e = AStop ->
       who e <> run_tid /\
       lock_depth (who e) earlier = 0 /\
       last_load (who e) earlier = Some pointer)
    (history (world s)) /\
  under_lock by_onStop (history (world s)) /\
  (forall i inv,
     nth_error (callers s) i = Some inv -> stopping (spc inv) = true ->
     (forall d, m_endpointLock (world s) <> Some (caller i, d)) /\
     lock_depth (caller i) (history (world s)) = 0 /\
     (endpoint inv = pointer -> alive pointer (world s) = true) /\
     (rpc s = L117 ->
      (forall j x, nth_error (callers s) j = Some x ->
                   stop_in_cs (spc x) = false) ->
      exists s', step cfg env run_tid s = Some s' /\ rpc s' = L119)).
Proof.
  intros s.
  pose proof (Story_exec cfg env o k schedule) as [I R C]. fold s in I, R, C.
  split; [apply (rs_stop_unlocked _ _ R)|]. split.
  { eapply under_lock_weaken; [|apply (rs_under_lock _ _ R)].
    intros e He. unfold write_or_onStop. rewrite He. apply orb_true_r. }
  intros i inv Hi Hs.
  assert (Hout : in_cs s (caller i) = false).
  { simpl. rewrite Hi. destruct (spc inv); auto; discriminate. }
  split; [|split; [|split]].
  - intros d Hl. pose proof (inv_shape _ I _ _ Hl) as ->.
    apply (inv_lock _ I) in Hl. congruence.
  - rewrite (inv_depth _ I), Hout. reflexivity.
  - intros Hp. unfold alive. simpl. apply Nat.ltb_lt.
    pose proof (holder_counted _ _ _ Hi) as Hle. rewrite Hp in Hle.
    rewrite (inv_count _ I). simpl in Hle. lia.
  - intros Hpc Hnone.
    assert (Hfree : m_endpointLock (world s) = None).
    { destruct (m_endpointLock (world s)) as [[t d]|] eqn:Hl; auto.
      pose proof (inv_shape _ I _ _ Hl) as ->.
      apply (inv_lock _ I) in Hl. destruct t as [|j]; simpl in Hl.
      - rewrite Hpc in Hl. discriminate.
      - destruct (nth_error (callers s) j) as [x|] eqn:Hj; try discriminate.
        rewrite (Hnone _ _ Hj) in Hl. discriminate. }
    simpl. rewrite Hpc. simpl. rewrite (acquire_free _ _ Hfree). simpl.
    eexists; split; reflexivity.
Qed.

(** C10.  Under every schedule, an invocation of [onStop] has called
    [signalThreadShouldExit ()] exactly once when it is past line 141 and
    not before, and the exit flag is then set; one that returned after
    reading a null handle has signalled and has never entered [stop ()].
    And every invocation made while the lock is free returns after seven
    steps of its own, flag set, having signalled once, and having asked the
    endpoint to stop once if [m_endpoint] was set and not at all if it was
    null. *)
Theorem onStop_always_signals_the_thread (o : list Outcome) (k : nat)
  (schedule : list tid) :
  let s := exec cfg env schedule (initial o k) in
  (forall i inv, nth_error (callers s) i = Some inv ->
     count_by (caller i) is_signal (history (world s)) =
       (if signalled (spc inv) then 1 else 0) /\
     (signalled (spc inv) = true -> threadShouldExit (world s) = true) /\
     (spc inv = StopReturned ->
      last_load (caller i) (history (world s)) = Some nullptr ->
      count_by (caller i) is_stop (history (world s)) = 0 /\
      count_by (caller i) is_signal (history (world s)) = 1)) /\
  (forall i,
     nth_error (callers s) i = Some fresh_invocation ->
     m_endpointLock (world s) = None ->
     let s' := exec cfg env (alone (caller i) 7) s in
     nth_error (callers s') i = Some (mkInvocation StopReturned nullptr) /\
     threadShouldExit (world s') = true /\
     count_by (caller i) is_signal (history (world s')) = 1 /\
     count_by (caller i) is_stop (history (world s')) =
       owners (m_endpoint (world s)) /\
     stop_requests (world s') =
       stop_requests (world s) + owners (m_endpoint (world s)) /\
     rpc s' = rpc s).
Proof.
  intros s.
  pose proof (Story_exec cfg env o k schedule) as [I R C]. fold s in I, R, C.
  split.
  - intros i inv Hi. destruct (C i inv Hi) as [K1 K2 K3 K4 K5 K6].
    split; [exact K5|]. split; [exact K6|].
    intros Hret Hnull. split.
    + rewrite K3, Hret, Hnull. reflexivity.
    + rewrite K5, Hret. reflexivity.
  - intros i Hi Hfree s'. subst s'.
    rewrite (exec_onStop_alone cfg env _ _ _ _ Hi).
    destruct (C i _ Hi) as [K1 K2 K3 K4 K5 K6]. simpl in K3, K5.
    destruct (onStop_completes (caller i) (world s) Hfree)
      as (w' & -> & F & Q & S1 & S2 & _).
    { intros Hp. rewrite (inv_count _ I), Hp. simpl. lia. }
    simpl. rewrite (nth_error_update_same _ _ _ _ Hi).
    repeat (split; [solve [auto | lia]|]). reflexivity.
Qed.

End Claims.

(** C7.  For every behaviour of the constructor's steps, [make_WSDoor]
    returns and does not throw: a null [door] when any step of the
    constructor threw, the constructed listener (its thread about to enter
    [run]) when none did. *)
Theorem make_WSDoor_never_throws {Address : Type} (c : Construction)
  (port : Port Address) (o : list Outcome) (k : nat) :
  exists door,
    make_WSDoor c port o k = Normal door /\
    (door = None <-> exists e, WSDoorImp_ctor c port o k = Thrown e) /\
    (forall d, WSDoorImp_ctor c port o k = Normal d -> door = Some d) /\
    ((base_WSDoor c = None /\ base_Thread c = None /\
      make_shared_Port c = None /\ startThread c = None) <->
     door = Some (mkWSDoorImp port (initial o k))).
Proof.
  unfold make_WSDoor, WSDoorImp_ctor.
  destruct c as [[e1|] [e2|] [e3|] [e4|]]; simpl;
    eexists; (split; [reflexivity|]);
    (split; [split; [intros Hn; try discriminate; eauto
                    | intros [e He]; try discriminate; reflexivity]|]);
    (split; [intros d Hd; try discriminate; congruence|]);
    (split; [intros (A & B & C & D); try discriminate; reflexivity
            | intros Hd; try discriminate; auto]).
Qed.

(** * Concrete runs *)

(** C1, as the claim states it, fails: [listen] raising something that is
    not a [websocketpp::exception] is neither logged nor retried; the
    exception leaves [run], the handle stays set and [stopped ()] is not
    called, although the transport would have returned on the next call. *)
Lemma foreign_failure_is_not_retried :
  rpc (exec peer_ws sound (alone run_tid 30)
         (initial [Raises (foreign_exception "boost::system::system_error");
                   Returns] 0))
    = Unwound (foreign_exception "boost::system::system_error") /\
  log (world (exec peer_ws sound (alone run_tid 30)
         (initial [Raises (foreign_exception "boost::system::system_error");
                   Returns] 0)))
    = [(lsINFO, "Websocket: 'peer-ws' listening on 127.0.0.1:6206")] /\
  count is_retry (history (world (exec peer_ws sound (alone run_tid 30)
         (initial [Raises (foreign_exception "boost::system::system_error");
                   Returns] 0)))) = 0 /\
  stopped_calls (world (exec peer_ws sound (alone run_tid 30)
         (initial [Raises (foreign_exception "boost::system::system_error");
                   Returns] 0))) = 0 /\
  m_endpoint (world (exec peer_ws sound (alone run_tid 30)
         (initial [Raises (foreign_exception "boost::system::system_error");
                   Returns] 0))) = pointer.
Proof. vm_compute. repeat split. Qed.

(** The amended C1 at two failures followed by a return. *)
Lemma run_retries_websocketpp_failures_witness :
  rpc (exec peer_ws sound (alone run_tid 17)
         (initial (failures ["a"; "b"] ++ [Returns])%list 1)) = Returned /\
  log (world (exec peer_ws sound (alone run_tid 17)
         (initial (failures ["a"; "b"] ++ [Returns])%list 1))) =
    [(lsINFO, "Websocket: 'peer-ws' listening on 127.0.0.1:6206");
     (lsWARNING, "websocketpp exception: a");
     (lsWARNING, "websocketpp exception: b")] /\
  count is_retry (history (world (exec peer_ws sound (alone run_tid 17)
         (initial (failures ["a"; "b"] ++ [Returns])%list 1)))) = 2.
Proof.
  pose proof (run_retries_websocketpp_failures peer_ws sound ["a"; "b"] [] 1
                eq_refl eq_refl) as (A & B & _).
  split; [exact (A 17 (le_n 17))|].
  destruct (B (alone run_tid 17)) as (L & R & _);
    [rewrite (A 17 (le_n 17)); reflexivity|].
  split; [exact L | exact R].
Defined.

(** C2, as the claim states it, fails: the read of [m_endpoint] by which
    [run] enters [listen] is made with the lock released at line 89. *)
Lemma listen_reads_the_handle_unlocked :
  history (world (exec peer_ws sound (alone run_tid 6) (initial [Returns] 0))) =
    [mkEvent run_tid (ACall listen); mkEvent run_tid (ALoad pointer);
     mkEvent run_tid AUnlock; mkEvent run_tid (AStore pointer);
     mkEvent run_tid AMakeShared; mkEvent run_tid ALock;
     mkEvent run_tid ANewHandler;
     mkEvent run_tid
       (ALog lsINFO "Websocket: 'peer-ws' listening on 127.0.0.1:6206")] /\
  lock_depth run_tid
    [mkEvent run_tid AUnlock; mkEvent run_tid (AStore pointer);
     mkEvent run_tid AMakeShared; mkEvent run_tid ALock;
     mkEvent run_tid ANewHandler;
     mkEvent run_tid
       (ALog lsINFO "Websocket: 'peer-ws' listening on 127.0.0.1:6206")] = 0 /\
  under_lockb anyone
    (history (world (exec peer_ws sound (alone run_tid 6) (initial [Returns] 0))))
    = false /\
  ~ under_lock anyone
      (history (world (exec peer_ws sound (alone run_tid 6)
                         (initial [Returns] 0)))).
Proof.
  split; [reflexivity|]. split; [reflexivity|]. split; [reflexivity|].
  intros Hu. apply under_lockb_sound in Hu. vm_compute in Hu. discriminate.
Qed.

(** C3, as the claim states it, fails: when [new WSServerHandler] throws,
    [run] is over after two steps and [stopped ()] was not called; nothing
    remains to call it. *)
Lemma failed_construction_never_calls_stopped :
  rpc (exec peer_ws no_handler (alone run_tid 30) (initial [Returns] 1))
    = Unwound (foreign_exception "std::bad_alloc") /\
  stopped_calls
    (world (exec peer_ws no_handler (alone run_tid 30) (initial [Returns] 1)))
    = 0 /\
  count is_stopped
    (history
       (world (exec peer_ws no_handler (alone run_tid 30) (initial [Returns] 1))))
    = 0 /\
  step peer_ws no_handler run_tid
    (exec peer_ws no_handler (alone run_tid 30) (initial [Returns] 1)) = None /\
  rpc (exec peer_ws no_endpoint (alone run_tid 30) (initial [Returns] 1))
    = Unwound (websocketpp_exception "endpoint") /\
  stopped_calls
    (world (exec peer_ws no_endpoint (alone run_tid 30) (initial [Returns] 1)))
    = 0.
Proof. vm_compute. repeat split. Qed.

(** The amended C3 at a handler construction that throws. *)
Lemma failed_construction_is_not_acknowledged_witness :
  construction_fails no_handler (foreign_exception "std::bad_alloc") /\
  rpc (exec peer_ws no_handler (alone run_tid 4) (initial [Returns] 1))
    = Unwound (foreign_exception "std::bad_alloc") /\
  stopped_calls
    (world (exec peer_ws no_handler [run_tid; caller 0; run_tid; caller 0]
              (initial [Returns] 1))) = 0.
Proof.
  assert (F : construction_fails no_handler (foreign_exception "std::bad_alloc"))
    by (left; reflexivity).
  pose proof (failed_construction_is_not_acknowledged peer_ws no_handler
                (foreign_exception "std::bad_alloc") [Returns] 1 F) as [A B].
  split; [exact F|]. split; [exact (A 4 (le_n 4))|].
  exact (proj1 (proj2 (proj2 (B [run_tid; caller 0; run_tid; caller 0])))).
Defined.

(** [onStop] twice while the endpoint serves: both invocations return, the
    endpoint is asked to stop twice, [stopped ()] is called once. *)
Example stop_twice :
  rpc (exec peer_ws sound
         (alone run_tid 6 ++ alone (caller 0) 7 ++ alone (caller 1) 7 ++
          alone run_tid 5)%list (initial [Returns] 2)) = Returned /\
  callers (exec peer_ws sound
         (alone run_tid 6 ++ alone (caller 0) 7 ++ alone (caller 1) 7 ++
          alone run_tid 5)%list (initial [Returns] 2)) =
    [mkInvocation StopReturned nullptr; mkInvocation StopReturned nullptr] /\
  stop_requests (world (exec peer_ws sound
         (alone run_tid 6 ++ alone (caller 0) 7 ++ alone (caller 1) 7 ++
          alone run_tid 5)%list (initial [Returns] 2))) = 2 /\
  stopped_calls (world (exec peer_ws sound
         (alone run_tid 6 ++ alone (caller 0) 7 ++ alone (caller 1) 7 ++
          alone run_tid 5)%list (initial [Returns] 2))) = 1.
Proof. vm_compute. repeat split. Qed.

(** [run] clears the handle while an invocation of [onStop] is inside
    [stop ()]: the copy keeps the endpoint alive. *)
Example cleared_during_stop :
  m_endpoint (world (exec peer_ws sound
         (alone run_tid 6 ++ alone (caller 0) 4 ++ alone run_tid 5)%list
         (initial [Returns] 1))) = nullptr /\
  callers (exec peer_ws sound
         (alone run_tid 6 ++ alone (caller 0) 4 ++ alone run_tid 5)%list
         (initial [Returns] 1)) = [mkInvocation L139_blocked pointer] /\
  use_count (world (exec peer_ws sound
         (alone run_tid 6 ++ alone (caller 0) 4 ++ alone run_tid 5)%list
         (initial [Returns] 1))) = 1 /\
  rpc (exec peer_ws sound
         (alone run_tid 6 ++ alone (caller 0) 4 ++ alone run_tid 5)%list
         (initial [Returns] 1)) = Returned.
Proof. vm_compute. repeat split. Qed.

(** [onStop] before anything is published and after the handle is cleared:
    no [stop ()], the signal all the same. *)
Example stop_on_a_null_handle :
  stop_requests (world (exec peer_ws sound (alone (caller 0) 7)
                          (initial [Returns] 1))) = 0 /\
  threadShouldExit (world (exec peer_ws sound (alone (caller 0) 7)
                             (initial [Returns] 1))) = true /\
  stop_requests (world (exec peer_ws sound
                          (alone run_tid 11 ++ alone (caller 0) 7)%list
                          (initial [Returns] 1))) = 0 /\
  threadShouldExit (world (exec peer_ws sound
                             (alone run_tid 11 ++ alone (caller 0) 7)%list
                             (initial [Returns] 1))) = true.
Proof. vm_compute. repeat split. Qed.

(** The factory on a thread that cannot be started, and on a sound
    construction. *)
Example make_WSDoor_samples :
  make_WSDoor no_thread peer_ws [] 0 = Normal None /\
  make_WSDoor smooth peer_ws [] 0 =
    Normal (Some (mkWSDoorImp peer_ws (initial [] 0))).
Proof. split; reflexivity. Qed.

(** * Further properties of the listener *)

Lemma holders_none (l : list Invocation) :
  (forall i inv, nth_error l i = Some inv -> endpoint inv = nullptr) ->
  holders l = 0.
Proof.
  unfold holders. induction l as [|a l IH]; intros Hall; simpl; auto.
  rewrite (Hall 0 a eq_refl). simpl. apply IH.
  intros i inv Hi. apply (Hall (S i) inv Hi).
Qed.

Lemma past_138_update (l : list Invocation) (i : nat) (old new : Invocation) :
  nth_error l i = Some old ->
  past_138 (update i new l) + (if past_stop (spc old) then 1 else 0) =
  past_138 l + (if past_stop (spc new) then 1 else 0).
Proof.
  unfold past_138. revert i; induction l as [|a l IH]; intros [|i] Hi;
    simpl in *; try discriminate.
  - injection Hi as ->.
    destruct (past_stop (spc old)), (past_stop (spc new)); simpl; lia.
  - specialize (IH _ Hi). destruct (past_stop (spc a)); simpl; lia.
Qed.

Lemma past_138_le (l : list Invocation) : past_138 l <= length l.
Proof. unfold past_138. apply filter_length_le. Qed.

Lemma length_update {A : Type} (l : list A) (i : nat) (x : A) :
  length (update i x l) = length l.
Proof. revert i; induction l as [|a l IH]; intros [|i]; simpl; auto. Qed.

Lemma count_by_never (t : tid) (f : action -> bool) (h : list event) :
  each_event (fun _ e => f (what e) = true -> who e <> t) h ->
  count_by t f h = 0.
Proof.
  unfold count_by. induction h as [|e h IH]; intros Hh; simpl; auto.
  apply each_event_tail in Hh as [He Hh].
  destruct (Nat.eqb (who e) t) eqn:Hw; simpl; auto.
  destruct (f (what e)) eqn:Hf; simpl; auto.
  apply Nat.eqb_eq in Hw. exfalso. apply He; auto.
Qed.

Lemma have_signalled_update_same (l : list Invocation) (i : nat)
  (old new : Invocation) :
  nth_error l i = Some old ->
  signalled (spc new) = signalled (spc old) ->
  have_signalled (update i new l) = have_signalled l.
Proof.
  unfold have_signalled. revert i; induction l as [|a l IH]; intros [|i] Hi Hs;
    simpl in *; try discriminate.
  - injection Hi as ->. rewrite Hs. reflexivity.
  - rewrite (IH _ Hi Hs). reflexivity.
Qed.

Lemma have_signalled_update_set (l : list Invocation) (i : nat)
  (old new : Invocation) :
  nth_error l i = Some old ->
  signalled (spc new) = true ->
  have_signalled (update i new l) = true.
Proof.
  unfold have_signalled. revert i; induction l as [|a l IH]; intros [|i] Hi Hs;
    simpl in *; try discriminate.
  - rewrite Hs. reflexivity.
  - rewrite (IH _ Hi Hs). apply orb_true_r.
Qed.

Section Further.

Context {Address : Type} `{AddressOps Address}.
Variable cfg : Port Address.
Variable env : Environment.

(** X1.  Non-null during service: under every schedule, from the end of
    line 88 until line 119 executes, and so all the time [run] is inside a
    blocking call, [m_endpoint] is set and the endpoint object is alive;
    an [onStop] called then, with the lock free, reaches the endpoint: the
    number of stop requests goes up by exactly one. *)
Theorem endpoint_is_set_during_service (o : list Outcome) (k : nat)
  (schedule : list tid) :
  published (rpc (exec cfg env schedule (initial o k))) = Some pointer ->
  let s := exec cfg env schedule (initial o k) in
  m_endpoint (world s) = pointer /\
  alive (m_endpoint (world s)) (world s) = true /\
  (forall i,
     nth_error (callers s) i = Some fresh_invocation ->
     m_endpointLock (world s) = None ->
     stop_requests (world (exec cfg env (alone (caller i) 7) s)) =
     S (stop_requests (world s))).
Proof.
  intros Hpub s. fold s in Hpub.
  pose proof (Inv_exec cfg env o k schedule) as I. fold s in I.
  pose proof (inv_published _ I _ Hpub) as Hep.
  assert (Huse : 0 < use_count (world s)).
  { rewrite (inv_count _ I), Hep. simpl. lia. }
  split; [exact Hep|]. split.
  - rewrite Hep. unfold alive. simpl. apply Nat.ltb_lt. exact Huse.
  - intros i Hi Hfree. rewrite (exec_onStop_alone cfg env _ _ _ _ Hi).
    destruct (onStop_completes (caller i) (world s) Hfree (fun _ => Huse))
      as (w' & -> & _ & Q & _).
    simpl. rewrite Q, Hep. simpl. lia.
Qed.

(** X2.  Under every schedule the owners of the endpoint object are counted
    exactly: [use_count] is one for [m_endpoint] when set plus one for each
    local copy an [onStop] holds; so the object is alive as long as anyone
    refers to it, and it is destroyed (count zero) once [run] has returned
    and every invocation of [onStop] has returned. *)
Theorem endpoint_owners_are_counted (o : list Outcome) (k : nat)
  (schedule : list tid) :
  let s := exec cfg env schedule (initial o k) in
  use_count (world s) = owners (m_endpoint (world s)) + holders (callers s) /\
  (forall i inv,
     nth_error (callers s) i = Some inv -> endpoint inv = pointer ->
     0 < use_count (world s)) /\
  (m_endpoint (world s) = pointer -> 0 < use_count (world s)) /\
  (rpc s = Returned ->
   (forall i inv, nth_error (callers s) i = Some inv -> spc inv = StopReturned) ->
   use_count (world s) = 0).
Proof.
  intros s. pose proof (Inv_exec cfg env o k schedule) as I. fold s in I.
  pose proof (inv_count _ I) as Hc.
  split; [exact Hc|]. split; [|split].
  - intros i inv Hi Hp. pose proof (holder_counted _ _ _ Hi) as Hle.
    rewrite Hp in Hle. simpl in Hle. lia.
  - intros Hp. rewrite Hc, Hp. simpl. lia.
  - intros Hret Hall. rewrite Hc.
    rewrite (inv_published _ I nullptr) by (rewrite Hret; reflexivity).
    rewrite holders_none; [reflexivity|].
    intros i inv Hi. apply (inv_local _ I _ _ Hi).
    rewrite (Hall _ _ Hi). reflexivity.
Qed.

(** X3.  Mutual exclusion: under every schedule at most one thread is
    between taking [m_endpointLock] and releasing it, and it is the owner
    of the lock; the recursive mutex is never taken a second time by its
    owner (its depth is one when held, and no thread's lock actions exceed
    its unlock actions by more than one). *)
Theorem one_thread_in_the_lock_scope (o : list Outcome) (k : nat)
  (schedule : list tid) :
  let s := exec cfg env schedule (initial o k) in
  (forall t u, in_cs s t = true -> in_cs s u = true -> t = u) /\
  (forall t d,
     m_endpointLock (world s) = Some (t, d) -> d = 1 /\ in_cs s t = true) /\
  (m_endpointLock (world s) = None -> forall t, in_cs s t = false) /\
  (forall t, lock_depth t (history (world s)) <= 1).
Proof.
  intros s. pose proof (Inv_exec cfg env o k schedule) as I. fold s in I.
  split; [|split; [|split]].
  - intros t u Ht Hu. apply (inv_lock _ I) in Ht. apply (inv_lock _ I) in Hu.
    congruence.
  - intros t d Hl. pose proof (inv_shape _ I _ _ Hl) as ->.
    split; [reflexivity|]. apply (inv_lock _ I). exact Hl.
  - intros Hl t. destruct (in_cs s t) eqn:Ht; auto.
    apply (inv_lock _ I) in Ht. congruence.
  - intros t. rewrite (inv_depth _ I). destruct (in_cs s t); lia.
Qed.

(** X4.  The lock is given up on every way out: under every schedule, when
    [run] has returned or an exception has left it (also the one thrown by
    [make_shared] inside the lock scope of lines 85-89), the execution
    thread does not own the lock, and neither does an invocation of
    [onStop] that has returned; when all of them are over the lock is
    free. *)
Theorem ended_threads_hold_no_lock (o : list Outcome) (k : nat)
  (schedule : list tid) :
  let s := exec cfg env schedule (initial o k) in
  (run_ended (rpc s) = true ->
   lock_depth run_tid (history (world s)) = 0 /\
   forall d, m_endpointLock (world s) <> Some (run_tid, d)) /\
  (forall i inv,
     nth_error (callers s) i = Some inv -> spc inv = StopReturned ->
     lock_depth (caller i) (history (world s)) = 0 /\
     forall d, m_endpointLock (world s) <> Some (caller i, d)) /\
  (run_ended (rpc s) = true ->
   (forall i inv, nth_error (callers s) i = Some inv -> spc inv = StopReturned) ->
   m_endpointLock (world s) = None).
Proof.
  intros s. pose proof (Inv_exec cfg env o k schedule) as I. fold s in I.
  assert (Hrun : run_ended (rpc s) = true -> in_cs s run_tid = false).
  { simpl. destruct (rpc s); auto; discriminate. }
  assert (Hcall : forall i inv,
            nth_error (callers s) i = Some inv -> spc inv = StopReturned ->
            in_cs s (caller i) = false).
  { intros i inv Hi Hp. simpl. rewrite Hi, Hp. reflexivity. }
  assert (Hfree : forall t, in_cs s t = false ->
            lock_depth t (history (world s)) = 0 /\
            forall d, m_endpointLock (world s) <> Some (t, d)).
  { intros t Ht. split.
    - rewrite (inv_depth _ I), Ht. reflexivity.
    - intros d Hl. pose proof (inv_shape _ I _ _ Hl) as ->.
      apply (inv_lock _ I) in Hl. congruence. }
  split; [|split].
  - intros He. apply Hfree, Hrun, He.
  - intros i inv Hi Hp. apply Hfree. eapply Hcall; eauto.
  - intros He Hall.
    destruct (m_endpointLock (world s)) as [[t d]|] eqn:Hl; auto.
    exfalso. destruct t as [|i].
    + pose proof (inv_shape _ I _ _ Hl) as ->.
      apply (inv_lock _ I) in Hl. pose proof (Hrun He) as Hout.
      unfold run_tid in Hout. congruence.
    + pose proof (inv_shape _ I _ _ Hl) as ->.
      pose proof (proj2 (inv_lock _ I (S i)) Hl) as Hin. simpl in Hin.
      destruct (nth_error (callers s) i) as [inv|] eqn:Hi; try discriminate.
      rewrite (Hall _ _ Hi) in Hin. discriminate.
Qed.

Lemma Writes_step (t : tid) (s s' : State) :
  Writes s -> step cfg env t s = Some s' -> Writes s'.
Proof.
  intros [A B C D] Hstep. destruct t as [|i]; simpl in Hstep.
  - destruct (run_step cfg env (rpc s) (world s)) as [[pc' w']|] eqn:Hr;
      try discriminate.
    injection Hstep as <-.
    destruct (rpc s) eqn:Hpc; simpl in Hr;
      unfold enter_serve, leave_serve in Hr; branches Hr; locks;
      simpl in A, B, C;
      try specialize (A eq_refl); try specialize (B eq_refl);
      (constructor;
       [ fields; simpl; auto; try (intros; congruence)
       | fields; simpl; auto; try (intros; congruence)
       | fields; unfold count in *; simpl; try lia
       | fields;
         repeat (apply each_event_cons; [cbn [what who] | ]);
         try assumption; try (intros; congruence) ]).
    all: intros v [= <-]; split; auto.
  - destruct (nth_error (callers s) i) as [inv|] eqn:Hi; try discriminate.
    destruct (onStop_step (caller i) inv (world s)) as [[inv' w']|] eqn:Hr;
      try discriminate.
    injection Hstep as <-. unfold onStop_step in Hr.
    destruct (spc inv); branches Hr; locks;
      (constructor;
       [ fields; simpl; auto
       | fields; simpl; auto
       | fields; unfold count in *; simpl; try lia
       | fields;
         repeat (apply each_event_cons; [cbn [what who] | ]);
         try assumption; try (intros; congruence) ]).
Qed.

Lemma Writes_exec (o : list Outcome) (k : nat) (schedule : list tid) :
  Writes (exec cfg env schedule (initial o k)).
Proof.
  apply exec_invariant.
  - intros t s s'. apply Writes_step.
  - constructor; simpl; auto; try discriminate. apply each_event_nil.
Qed.

(** X5.  The execution thread is the only writer of the handle, and it
    writes it at most twice: under every schedule every store to
    [m_endpoint] is made by [run]; a non-null value is stored only when
    nothing was stored before, null only over the non-null value, so the
    handle is set at most once and, once cleared, never set again. *)
Theorem handle_is_set_once_and_cleared_once (o : list Outcome) (k : nat)
  (schedule : list tid) :
  let s := exec cfg env schedule (initial o k) in
  each_event
    (fun earlier e =>
       forall v, what e = AStore v ->
       who e = run_tid /\
       last_store earlier =
         match v with
         | pointer => None
         | nullptr => Some pointer
         end)
    (history (world s)) /\
  count writes_endpoint (history (world s)) <= 2 /\
  (unmade (rpc s) = true -> count writes_endpoint (history (world s)) = 0).
Proof.
  intros s. destruct (Writes_exec o k schedule) as [A B C D]. fold s in A, B, C, D.
  split; [exact D|]. split.
  - destruct (unmade (rpc s)); [lia|].
    destruct (published (rpc s)) as [[|]|]; lia.
  - intros Hu. rewrite Hu in C. lia.
Qed.

Lemma stops_step (t : tid) (s s' : State) :
  stop_requests (world s) = count is_stop (history (world s)) /\
  stop_requests (world s) <= past_138 (callers s) ->
  step cfg env t s = Some s' ->
  stop_requests (world s') = count is_stop (history (world s')) /\
  stop_requests (world s') <= past_138 (callers s').
Proof.
  intros [A B] Hstep. destruct t as [|i]; simpl in Hstep.
  - destruct (run_step cfg env (rpc s) (world s)) as [[pc' w']|] eqn:Hr;
      try discriminate.
    injection Hstep as <-.
    destruct (rpc s) eqn:Hpc; simpl in Hr;
      unfold enter_serve, leave_serve in Hr; branches Hr; locks;
      fields; unfold count in *; simpl; auto.
  - destruct (nth_error (callers s) i) as [inv|] eqn:Hi; try discriminate.
    destruct (onStop_step (caller i) inv (world s)) as [[inv' w']|] eqn:Hr;
      try discriminate.
    injection Hstep as <-.
    pose proof (past_138_update _ _ _ inv' Hi) as Hupd.
    unfold onStop_step in Hr.
    destruct (spc inv) eqn:Hpc; branches Hr; locks;
      fields; unfold count in *; simpl in *; split; lia.
Qed.

(** X6.  Under every schedule the endpoint is asked to stop at most once
    by each invocation of [onStop] and never by [run]; the requests it has
    received are exactly the [stop ()] calls entered, and with [k]
    invocations they are at most [k]. *)
Theorem endpoint_asked_to_stop_once_per_call (o : list Outcome) (k : nat)
  (schedule : list tid) :
  let s := exec cfg env schedule (initial o k) in
  count_by run_tid is_stop (history (world s)) = 0 /\
  (forall i inv,
     nth_error (callers s) i = Some inv ->
     count_by (caller i) is_stop (history (world s)) <= 1) /\
  stop_requests (world s) = count is_stop (history (world s)) /\
  stop_requests (world s) <= k.
Proof.
  intros s.
  pose proof (Story_exec cfg env o k schedule) as [I R C]. fold s in I, R, C.
  assert (Hinv :
    (stop_requests (world s) = count is_stop (history (world s)) /\
     stop_requests (world s) <= past_138 (callers s)) /\
    length (callers s) = k).
  { apply (exec_invariant cfg env
             (fun s =>
                (stop_requests (world s) = count is_stop (history (world s)) /\
                 stop_requests (world s) <= past_138 (callers s)) /\
                length (callers s) = k)).
    - intros t a b [Ha Hl] Hstep. split; [eapply stops_step; eauto|].
      destruct t as [|i]; simpl in Hstep.
      + destruct (run_step cfg env (rpc a) (world a)) as [[pc' w']|];
          try discriminate.
        injection Hstep as <-. exact Hl.
      + destruct (nth_error (callers a) i) as [inv|]; try discriminate.
        destruct (onStop_step (caller i) inv (world a)) as [[inv' w']|];
          try discriminate.
        injection Hstep as <-. simpl. rewrite length_update. exact Hl.
    - simpl. rewrite repeat_length. repeat split. unfold past_138. lia. }
  destruct Hinv as [[Ha Hb] Hl].
  split; [|split; [|split]].
  - apply count_by_never.
    eapply each_event_impl; [|apply (rs_stop_unlocked _ _ R)].
    simpl. intros earlier e He Hf. apply He.
    destruct (what e); auto; discriminate.
  - intros i inv Hi. destruct (C i inv Hi) as [K1 K2 K3 K4 K5 K6].
    rewrite K3. destruct (past_stop (spc inv)); [|lia].
    destruct (last_load (caller i) (history (world s))) as [[|]|]; simpl; lia.
  - exact Ha.
  - pose proof (past_138_le (callers s)). lia.
Qed.

Lemma flag_step (t : tid) (s s' : State) :
  threadShouldExit (world s) = have_signalled (callers s) ->
  step cfg env t s = Some s' ->
  threadShouldExit (world s') = have_signalled (callers s').
Proof.
  intros A Hstep. destruct t as [|i]; simpl in Hstep.
  - destruct (run_step cfg env (rpc s) (world s)) as [[pc' w']|] eqn:Hr;
      try discriminate.
    injection Hstep as <-.
    destruct (rpc s) eqn:Hpc; simpl in Hr;
      unfold enter_serve, leave_serve in Hr; branches Hr; locks;
      fields; exact A.
  - destruct (nth_error (callers s) i) as [inv|] eqn:Hi; try discriminate.
    destruct (onStop_step (caller i) inv (world s)) as [[inv' w']|] eqn:Hr;
      try discriminate.
    injection Hstep as <-. unfold onStop_step in Hr.
    destruct (spc inv) eqn:Hpc; branches Hr; locks; fields;
      first
        [ rewrite (have_signalled_update_same _ _ _ _ Hi)
            by (simpl; rewrite Hpc; reflexivity);
          exact A
        | rewrite (have_signalled_update_set _ _ _ _ Hi) by reflexivity;
          reflexivity ].
Qed.

Lemma flag_stays (more : list tid) (s : State) :
  threadShouldExit (world s) = true ->
  threadShouldExit (world (exec cfg env more s)) = true.
Proof.
  apply (exec_invariant cfg env (fun s => threadShouldExit (world s) = true)).
  intros t a b Ha Hstep.
  destruct (step_growth cfg env _ _ _ Hstep) as (_ & _ & _ & Hflag). auto.
Qed.

(** X7.  The exit flag is set by [onStop] and by nothing else: under every
    schedule it is set exactly when some invocation of [onStop] has executed
    line 141, so it is clear as long as none has, whatever [run] does; and
    once set it stays set. *)
Theorem exit_flag_is_set_by_onStop_only (o : list Outcome) (k : nat)
  (schedule : list tid) :
  let s := exec cfg env schedule (initial o k) in
  (threadShouldExit (world s) = true <->
   exists i inv,
     nth_error (callers s) i = Some inv /\ signalled (spc inv) = true) /\
  (forall more,
     threadShouldExit (world s) = true ->
     threadShouldExit (world (exec cfg env more s)) = true).
Proof.
  intros s.
  assert (A : threadShouldExit (world s) = have_signalled (callers s)).
  { apply (exec_invariant cfg env
             (fun s => threadShouldExit (world s) = have_signalled (callers s))).
    - intros t a b. apply flag_step.
    - simpl. unfold have_signalled. induction k; simpl; auto. }
  split.
  - rewrite A. unfold have_signalled. rewrite existsb_exists. split.
    + intros (inv & Hin & Hs). apply In_nth_error in Hin as (i & Hi).
      exists i, inv. auto.
    + intros (i & inv & Hi & Hs). exists inv. split; auto.
      eapply nth_error_In; eauto.
  - intros more. apply flag_stays.
Qed.

(** X8.  Whatever the transport answers, under every schedule and as long
    as no exception has left [run]: the log is the startup line (once line
    76 has executed) followed by one warning per failure caught so far, in
    the order the transport raised them, the caught failures being the
    first answers of the transport; nothing else is ever logged, and the
    retries so far are no more than the warnings. *)
Theorem log_is_startup_line_then_warnings (o : list Outcome) (k : nat)
  (schedule : list tid) :
  unwound (rpc (exec cfg env schedule (initial o k))) = false ->
  let s := exec cfg env schedule (initial o k) in
  exists done rest,
    log (world s) =
      (match rpc s with
       | L76 => []
       | _ => [(lsINFO, startup_message cfg)]
       end ++ warnings done)%list /\
    o = (failures done ++ rest)%list /\
    count is_retry (history (world s)) <= length done.
Proof.
  intros Hnot s.
  destruct (Flow_exec cfg env o k schedule Hnot) as (done & [A B C D E]).
  fold s in A, B, C, D, E.
  exists done, (pending (rpc s) ++ transport (world s))%list.
  split; [|split].
  - unfold log. rewrite B, rev_app_distr, rev_involutive.
    destruct (rpc s); reflexivity.
  - exact A.
  - rewrite D. unfold calls_at.
    destruct (before_serve (rpc s)); simpl; [lia|].
    destruct (rpc s); simpl; lia.
Qed.

End Further.

(** ** After [run] has ended; failures [run] does not catch *)

Section Ended.

Context {Address : Type} `{AddressOps Address}.
Variable cfg : Port Address.
Variable env : Environment.

Lemma onStop_leaves (i : nat) (s s' : State) :
  step cfg env (caller i) s = Some s' ->
  rpc s' = rpc s /\
  m_endpoint (world s') = m_endpoint (world s) /\
  stopped_calls (world s') = stopped_calls (world s) /\
  journal (world s') = journal (world s) /\
  transport (world s') = transport (world s).
Proof.
  intros Hstep. simpl in Hstep.
  destruct (nth_error (callers s) i) as [inv|] eqn:Hi; try discriminate.
  destruct (onStop_step (caller i) inv (world s)) as [[inv' w']|] eqn:Hr;
    try discriminate.
  injection Hstep as <-. unfold onStop_step in Hr.
  destruct (spc inv); branches Hr; locks; fields; auto.
Qed.





End Ended.

(** ** [onStop] always gets to return *)

Section Progress.

Context {Address : Type} `{AddressOps Address}.
Variable cfg : Port Address.
Variable env : Environment.



(** Whoever holds the lock gives it up within two steps of its own, which
    leave the other invocations as they are. *)
Lemma holder_frees (s : State) (t : tid) (d : nat) (i : nat) :
  Inv s ->
  m_endpointLock (world s) = Some (t, d) ->
  t <> caller i ->
  m_endpointLock (world (exec cfg env [t; t] s)) = None /\
  nth_error (callers (exec cfg env [t; t] s)) i = nth_error (callers s) i.
Proof.
  intros I Hl Hne.
  pose proof (inv_shape _ I _ _ Hl) as ->.
  pose proof (proj2 (inv_lock _ I t) Hl) as Hin.
  destruct t as [|j].
  - change [0; 0] with (alone run_tid 2). rewrite exec_run_alone.
    cbn [world rpc callers]. split; [|reflexivity].
    simpl in Hin.
    destruct (rpc s) eqn:Hpc; try discriminate Hin; cbn [run_for run_step].
    + destruct (endpoint_ctor env) as [e|].
      * rewrite (release_held run_tid _ Hl). reflexivity.
      * cbn [run_for run_step]. rewrite (release_held run_tid) by exact Hl.
        reflexivity.
    + rewrite (release_held run_tid _ Hl). cbn [run_for run_step].
      unfold enter_serve. destruct (alive _ _); reflexivity.
    + rewrite (release_held run_tid) by exact Hl. reflexivity.
    + rewrite (release_held run_tid _ Hl). reflexivity.
  - simpl in Hin.
    destruct (nth_error (callers s) j) as [inv|] eqn:Hj; try discriminate.
    change [S j; S j] with (alone (caller j) 2).
    rewrite (exec_onStop_alone cfg env 2 j inv s Hj).
    cbn [world rpc callers]. split.
    + cbn [onStop_for]. unfold onStop_step.
      destruct (spc inv); try discriminate Hin;
        unfold release; fields; rewrite ?Hl, ?Nat.eqb_refl; simpl;
        unfold release; fields; rewrite ?Hl, ?Nat.eqb_refl; simpl;
        try reflexivity.
      destruct (endpoint inv); simpl; auto.
      destruct (alive pointer _); reflexivity.
    + apply nth_error_update_other. unfold caller in Hne. congruence.
Qed.




Lemma onStop_alone_leaves (i n : nat) (s : State) :
  rpc (exec cfg env (alone (caller i) n) s) = rpc s /\
  transport (world (exec cfg env (alone (caller i) n) s)) = transport (world s).
Proof.
  revert s; induction n as [|n IH]; intros s; auto.
  change (alone (caller i) (S n)) with (caller i :: alone (caller i) n).
  cbn [exec]. destruct (step cfg env (caller i) s) as [s'|] eqn:Hs; auto.
  destruct (onStop_leaves cfg env _ _ _ Hs) as (A & _ & _ & _ & B).
  destruct (IH s') as (C & D). split; congruence.
Qed.


End Progress.

(** ** The end of the startup line *)

Lemma last_char_append (a b : string) :
  b <> "" -> last_char (a ++ b) = last_char b.
Proof.
  intros Hb. induction a as [|c a IH]; simpl; auto.
  rewrite IH. destruct (a ++ b) eqn:Hab; auto.
  destruct a; simpl in Hab; [congruence | discriminate].
Qed.

Lemma append_nonempty_r (a b : string) : b <> "" -> a ++ b <> "".
Proof. intros Hb. destruct a; simpl; [exact Hb | discriminate]. Qed.

Lemma append_empty_r (a : string) : a ++ "" = a.
Proof. induction a as [|c a IH]; simpl; congruence. Qed.

Lemma string_of_uint_empty (d : Decimal.uint) :
  NilEmpty.string_of_uint d = "" -> d = Decimal.Nil.
Proof. destruct d; simpl; auto; discriminate. Qed.

Lemma last_char_of_uint (d : Decimal.uint) :
  d <> Decimal.Nil ->
  exists c, last_char (NilEmpty.string_of_uint d) = Some c /\ c <> ")"%char.
Proof.
  induction d as [|d IH|d IH|d IH|d IH|d IH|d IH|d IH|d IH|d IH|d IH];
    intros Hd; [congruence|..];
    (destruct (NilEmpty.string_of_uint d) eqn:Hs;
     [ simpl; rewrite Hs; eexists; split; [reflexivity | discriminate]
     | destruct IH as (c & Hc & Hne);
       [ intros ->; discriminate
       | exists c; split; [simpl; rewrite Hs; exact Hc | exact Hne] ] ]).
Qed.

Lemma to_uint_not_nil (n : N) : N.to_uint n <> Decimal.Nil.
Proof.
  intros Hn. pose proof (DecimalN.Unsigned.of_to n) as Hof.
  rewrite Hn in Hof. simpl in Hof. subst n. discriminate.
Qed.

Lemma last_char_to_string (n : N) :
  to_string n <> "" /\
  exists c, last_char (to_string n) = Some c /\ c <> ")"%char.
Proof.
  unfold to_string. split.
  - intros He. apply string_of_uint_empty in He.
    exact (to_uint_not_nil n He).
  - apply last_char_of_uint, to_uint_not_nil.
Qed.

(** X12.  The startup line ends with a closing parenthesis exactly when the
    port allows admin: the text [(Admin)] is last when the flag is set, a
    digit of the port number is last when it is not, whatever the name and
    the address are.  So two configurations that differ in the flag never
    give the same line. *)
Theorem startup_line_ends_with_the_admin_mark {Address : Type}
  `{AddressOps Address} (p : Port Address) :
  (last_char (startup_message p) = Some ")"%char <-> allow_admin p = true) /\
  (forall q : Port Address,
     allow_admin p <> allow_admin q ->
     startup_message p <> startup_message q).
Proof.
  assert (Hend : forall r : Port Address,
            last_char (startup_message r) = Some ")"%char <->
            allow_admin r = true).
  { intros r. unfold startup_message.
    destruct (last_char_to_string (port r)) as (Hne & c & Hc & Hnot).
    destruct (allow_admin r).
    - repeat (rewrite last_char_append
                by (repeat apply append_nonempty_r; discriminate)).
      simpl. split; auto.
    - rewrite append_empty_r.
      repeat (rewrite last_char_append
                by (repeat apply append_nonempty_r; exact Hne)).
      rewrite Hc. split; [intros [= ->]; congruence | discriminate]. }
  split; [apply Hend|].
  intros q Hdiff Heq.
  pose proof (Hend p) as Hp. pose proof (Hend q) as Hq. rewrite Heq in Hp.
  destruct (allow_admin p), (allow_admin q); try congruence.
  - assert (false = true) by (apply Hq, Hp; reflexivity). discriminate.
  - assert (false = true) by (apply Hp, Hq; reflexivity). discriminate.
Qed.

(** ** [run] waits only for the transport *)

Section RunProgress.

Context {Address : Type} `{AddressOps Address}.
Variable cfg : Port Address.
Variable env : Environment.

Lemma run_step_moves (pc pc' : RunPc) (w w' : World) :
  run_step cfg env pc w = Some (pc', w') -> pc' <> pc.
Proof.
  intros Hr. destruct pc; simpl in Hr;
    unfold enter_serve, leave_serve in Hr; branches Hr; discriminate.
Qed.

Lemma run_step_enabled (s : State) :
  rpc s <> RunFault ->
  run_ended (rpc s) = false ->
  (locking (rpc s) = true -> m_endpointLock (world s) = None) ->
  (parked (rpc s) = true -> transport (world s) <> []) ->
  exists s', step cfg env run_tid s = Some s' /\ rpc s' <> rpc s.
Proof.
  intros Hok Hend Hlock Hpark.
  assert (Hsome : exists pc' w',
            run_step cfg env (rpc s) (world s) = Some (pc', w')).
  { destruct (rpc s) eqn:Hpc; simpl in *; try discriminate; try congruence;
      unfold leave_serve, enter_serve;
      try (rewrite (acquire_free _ _ (Hlock eq_refl)); simpl);
      try (destruct (transport (world s)) eqn:Ht;
           [exfalso; apply Hpark; reflexivity|]);
      repeat match goal with
        | |- context [match ?x with _ => _ end] => destruct x
        end;
      eexists; eexists; reflexivity. }
  destruct Hsome as (pc' & w' & Hr). simpl. rewrite Hr.
  eexists; split; [reflexivity|]. simpl. eapply run_step_moves; eauto.
Qed.

(** X13.  [run] waits for nothing but the transport: under every schedule,
    either [run] has ended, or it is parked in a blocking call that the
    transport has not answered yet, or at most three further steps (two of
    an [onStop] that holds the lock, one of its own) move it on: no wait
    for the lock lasts. *)
Theorem run_waits_only_for_the_transport (o : list Outcome) (k : nat)
  (schedule : list tid) :
  let s := exec cfg env schedule (initial o k) in
  run_ended (rpc s) = true \/
  (parked (rpc s) = true /\ transport (world s) = []) \/
  exists more,
    length more <= 3 /\ rpc (exec cfg env more s) <> rpc s.
Proof.
  intros s. pose proof (Inv_exec cfg env o k schedule) as I. fold s in I.
  destruct (run_ended (rpc s)) eqn:Hend; [left; reflexivity | right].
  destruct (parked (rpc s)) eqn:Hpark.
  - destruct (transport (world s)) eqn:Ht; [left; auto | right].
    destruct (run_step_enabled s (inv_run_ok _ I) Hend) as (s' & Hs & Hne).
    + destruct (rpc s); discriminate.
    + rewrite Ht. discriminate.
    + exists [run_tid]. split; [simpl; lia|]. cbn [exec].
      rewrite Hs. exact Hne.
  - right.
    destruct (m_endpointLock (world s)) as [[t d]|] eqn:Hl.
    + destruct (locking (rpc s)) eqn:Hlk.
      * assert (Ht : t <> run_tid).
        { intros ->. pose proof (inv_shape _ I _ _ Hl) as ->.
          apply (inv_lock _ I) in Hl. simpl in Hl.
          destruct (rpc s); discriminate. }
        destruct t as [|j]; [exfalso; apply Ht; reflexivity|].
        assert (Hne : S j <> caller (S j)) by (unfold caller; lia).
        destruct (holder_frees cfg env s (S j) d (S j) I Hl Hne)
          as (Hfree & _).
        pose proof (onStop_alone_leaves cfg env j 2 s) as [Hrpc _].
        change (alone (caller j) 2) with [S j; S j] in Hrpc.
        remember (exec cfg env [S j; S j] s) as s2 eqn:Hs2.
        destruct (run_step_enabled s2) as (s' & Hs & Hmv).
        -- rewrite Hrpc. apply (inv_run_ok _ I).
        -- rewrite Hrpc. exact Hend.
        -- intros _. rewrite Hs2. exact Hfree.
        -- rewrite Hrpc, Hpark. discriminate.
        -- exists ([S j; S j] ++ [run_tid])%list. split; [simpl; lia|].
           rewrite exec_app, <- Hs2. cbn [exec]. rewrite Hs.
           rewrite <- Hrpc. exact Hmv.
      * destruct (run_step_enabled s (inv_run_ok _ I) Hend) as (s' & Hs & Hne).
        -- rewrite Hlk. discriminate.
        -- rewrite Hpark. discriminate.
        -- exists [run_tid]. split; [simpl; lia|]. cbn [exec].
           rewrite Hs. exact Hne.
    + destruct (run_step_enabled s (inv_run_ok _ I) Hend) as (s' & Hs & Hne).
      * intros _. exact Hl.
      * rewrite Hpark. discriminate.
      * exists [run_tid]. split; [simpl; lia|]. cbn [exec].
        rewrite Hs. exact Hne.
Qed.

End RunProgress.

(** ** The further properties on sample runs *)

(** X1 while [run] is inside [listen]. *)
Lemma endpoint_is_set_during_service_witness :
  m_endpoint (world (exec peer_ws sound (alone run_tid 6) (initial [Returns] 1)))
    = pointer /\
  alive
    (m_endpoint
       (world (exec peer_ws sound (alone run_tid 6) (initial [Returns] 1))))
    (world (exec peer_ws sound (alone run_tid 6) (initial [Returns] 1)))
    = true.
Proof.
  pose proof (endpoint_is_set_during_service peer_ws sound [Returns] 1
                (alone run_tid 6) eq_refl) as (A & B & _).
  split; [exact A | exact B].
Defined.

(** X8 after one caught failure. *)
Lemma log_is_startup_line_then_warnings_witness :
  exists done rest,
    log (world (exec peer_ws sound (alone run_tid 9)
                  (initial (failures ["a"] ++ [Returns])%list 0))) =
      ([(lsINFO, startup_message peer_ws)] ++ warnings done)%list /\
    (failures ["a"] ++ [Returns])%list = (failures done ++ rest)%list.
Proof.
  destruct (log_is_startup_line_then_warnings peer_ws sound
              (failures ["a"] ++ [Returns])%list 0 (alone run_tid 9) eq_refl)
    as (done & rest & A & B & _).
  exists done, rest. split; [exact A | exact B].
Defined.



